(** * gsnova, common/channel/remote.go: server side of the multiplexed proxy

    A shallow embedding of the session and stream lifecycle engine of
    [remote.go]: the rate-limit bucket registry ([getRateLimitBucket]), the
    session context and its teardown ([sessionContext.close]), the idle
    session reaper (the goroutine of [init]), the timeout classifier
    ([isTimeoutErr]), the per-stream handler ([handleProxyStream]) and the
    accept loop with its auth handshake ([ServProxyMuxSession]).

    Conventions.
    - Go's [int32]/[int64]/[time.Duration] are [Z] with the wrap-around
      written out ([wrap32], [wrap64]); [time.Time] is a monotonic reading
      in nanoseconds.
    - A Go [error] value is [option error]; [None] is [nil].
    - Pointers ([*sessionContext], [*ratelimit.Bucket]) are indices into a
      heap, so that sharing and identity are visible.
    - Calls into collaborators (transport, credentials, policy, peer relay,
      dialer) are answered by an environment record [Env] and recorded in a
      trace of [Event]s, in program order.  Logging is not recorded. *)

From stdpp Require Import gmap strings list fin_maps.
From Stdlib Require Import ZArith Lia.

Open Scope Z_scope.

(** ** Machine integers and time *)

Definition wrap32 (z : Z) : Z := (z + 2^31) mod 2^32 - 2^31.
Definition wrap64 (z : Z) : Z := (z + 2^63) mod 2^64 - 2^63.

Definition maxInt64 : Z := 2^63 - 1.
Definition minInt64 : Z := - 2^63.

(** [time.Duration] constants, in nanoseconds. *)
Definition Millisecond : Z := 1000000.
Definition Second : Z := 1000000000.

(** [time.Duration(n) * unit] on int64. *)
Definition dur_mul (n unit : Z) : Z := wrap64 (n * unit).

(** [t.Sub(u)]: the difference, saturated to the range of [Duration]. *)
Definition Sub (t u : Z) : Z :=
  if t - u >? maxInt64 then maxInt64
  else if t - u <? minInt64 then minInt64
  else t - u.

(** [t.Add(d)]. *)
Definition Add (t d : Z) : Z := t + d.

(** ** Errors *)

(** The error values the file distinguishes: the two sentinels of pmux, the
    sentinel of mux, errors implementing [net.Error] (with the answer of
    their [Timeout()] method), and everything else. *)
Inductive error : Type :=
| ErrTimeout                                  (* pmux.ErrTimeout *)
| ErrSessionShutdown                          (* pmux.ErrSessionShutdown *)
| ErrAuthFailed                               (* mux.ErrAuthFailed *)
| NetError (timeout : bool) (msg : string)    (* a net.Error *)
| OtherError (msg : string).

Definition isTimeoutErr (err : option error) : bool :=
  match err with
  | Some ErrTimeout => true
  | Some (NetError true _) => true
  | _ => false
  end.

(** ** Rate limiter registry *)

(** [ratelimit.Bucket] of github.com/juju/ratelimit, reduced to the three
    parameters that fix its behaviour: [quantum] tokens are added every
    [fillInterval], up to [capacity]. *)
Record Bucket : Type := mkBucket {
  fillInterval : Z;
  capacity : Z;
  quantum : Z
}.

(** [ratelimit.NewBucket(fillInterval, capacity)]: "a new token bucket that
    fills at the rate of one token every fillInterval, up to the given
    maximum capacity"; it is [NewBucketWithQuantum] at quantum 1. *)
Definition NewBucket (fi cap : Z) : Bucket :=
  {| fillInterval := fi; capacity := cap; quantum := 1 |}.

(** The bucket's [Rate()] method, tokens per second, as the integer
    quotient. *)
Definition Rate (b : Bucket) : Z := Second * quantum b / fillInterval b.

(** [RateLimitConfig]: [Limit] is a Go map from user to rate string; [None]
    is the nil map. *)
Record RateLimitConfig : Type := mkRateLimitConfig {
  Limit : option (gmap string string)
}.

(** The package-level registry: [rateLimitBuckets] maps a key to a bucket
    pointer; [bucketHeap] holds the buckets allocated so far, a pointer being
    an index into it. *)
Record RLState : Type := mkRLState {
  rateLimitBuckets : gmap string nat;
  bucketHeap : list Bucket
}.

Definition rl_init : RLState :=
  {| rateLimitBuckets := ∅; bucketHeap := [] |}.

(** What [getRateLimitBucket] does to the registry, in program order. *)
Inductive RLEvent : Type :=
| RLLock
| RLLoad (key : string)
| RLAlloc (r : nat) (b : Bucket)
| RLStore (key : string) (r : nat)
| RLUnlock.

Section RateLimit.

(** [helper.ToBytes] lives in another package of the repository; it is
    taken as given: a parse error, or a [uint64] byte count. *)
Variable ToBytes : string -> error + Z.

(** Lines 44-51: the exact user, else the wildcard, with the key rebound. *)
Definition limit_entry (cfg : RateLimitConfig) (user : string)
  : option (string * string) :=
  match Limit cfg with
  | None => None
  | Some m =>
      match m !! user with
      | Some l => Some (user, l)
      | None =>
          match m !! "*"%string with
          | Some l => Some ("*"%string, l)
          | None => None
          end
      end
  end.

(** Lines 52-58. *)
Definition limitPerSec (l : string) : Z :=
  if (0 <? Z.of_nat (String.length l)) then
    match ToBytes l with
    | inr v => wrap64 v
    | inl _ => -1
    end
  else -1.

Definition getRateLimitBucket (cfg : RateLimitConfig) (user : string)
           (st : RLState) : option nat * RLState * list RLEvent :=
  match limit_entry cfg user with
  | None => (None, st, [])
  | Some (key, l) =>
      if limitPerSec l <=? 0 then (None, st, [])
      else
        match rateLimitBuckets st !! key with
        | Some r => (Some r, st, [RLLock; RLLoad key; RLUnlock])
        | None =>
            let r := length (bucketHeap st) in
            let b := NewBucket (1 * Second) (limitPerSec l) in
            (Some r,
             {| rateLimitBuckets := <[key := r]> (rateLimitBuckets st);
                bucketHeap := bucketHeap st ++ [b] |},
             [RLLock; RLLoad key; RLAlloc r b; RLStore key r; RLUnlock])
        end
  end.

Definition rl_result (x : option nat * RLState * list RLEvent) := x.1.1.
Definition rl_state (x : option nat * RLState * list RLEvent) := x.1.2.
Definition rl_trace (x : option nat * RLState * list RLEvent) := x.2.

(** The registry states a process can be in under a fixed configuration:
    the empty registry, then any sequence of calls. *)
Inductive rl_reachable (cfg : RateLimitConfig) : RLState -> Prop :=
| rl_reach_init : rl_reachable cfg rl_init
| rl_reach_call st user :
    rl_reachable cfg st ->
    rl_reachable cfg (rl_state (getRateLimitBucket cfg user st)).

(** The rate string configured under a key. *)
Definition configured (cfg : RateLimitConfig) (key : string) : option string :=
  match Limit cfg with
  | None => None
  | Some m => m !! key
  end.

(** Every cached pointer is allocated, and its bucket was built from the
    rate configured under its key. *)
Definition rl_inv (cfg : RateLimitConfig) (st : RLState) : Prop :=
  forall key r, rateLimitBuckets st !! key = Some r ->
    exists l, configured cfg key = Some l /\ 0 < limitPerSec l /\
              bucketHeap st !! r = Some (NewBucket (1 * Second) (limitPerSec l)).

End RateLimit.

(** ** Messages and configuration *)

(** [mux.AuthRequest], the fields the file reads. *)
Record AuthRequest : Type := mkAuthRequest {
  User : string;
  CipherMethod : string;
  CipherCounter : Z;
  CompressMethod : string;
  P2SPRoomId : string;
  P2SPConnId : string
}.

(** [mux.ConnectRequest]; the two timeouts are in milliseconds. *)
Record ConnectRequest : Type := mkConnectRequest {
  Network : string;
  Addr : string;
  DialTimeout : Z;
  ReadTimeout : Z;
  Hops : list string
}.

(** [mux.StreamOptions], as built at lines 155-159. *)
Record StreamOptions : Type := mkStreamOptions {
  so_DialTimeout : Z;
  so_ReadTimeout : Z;
  so_Hops : list string
}.

(** Modelled from the spec: the declaration of [CipherConfig] is not in
    remote.go; the spec calls [DefaultServerCipher] "this server's own
    default identity/cipher", so the record carries the server's identity
    and its cipher parameters. *)
Record CipherConfig : Type := mkCipherConfig {
  cipher_User : string;
  cipher_Method : string;
  cipher_Key : string
}.

(** [defaultMuxConfig], the two fields read here; both in seconds. *)
Record MuxConfig : Type := mkMuxConfig {
  SessionIdleTimeout : Z;
  StreamIdleTimeout : Z
}.

(** The package-level configuration variables. *)
Record Config : Type := mkConfig {
  defaultMuxConfig : MuxConfig;
  DefaultServerCipher : CipherConfig;
  DefaultServerRateLimit : RateLimitConfig
}.

(** The destination connection [c] of a stream ([io.ReadWriteCloser]): a
    dialled [net.Conn] or an outbound [mux.MuxStream]. *)
Inductive Dest : Type :=
| DConn (c : nat)
| DStream (s : nat).

(** The collaborators, as functions answering each call. *)
Record Env : Type := mkEnv {
  ToBytes : string -> error + Z;                      (* helper.ToBytes *)
  Allowed : string -> bool;                           (* defaultProxyLimitConfig.Allowed *)
  ReadConnectRequest : nat -> error + ConnectRequest; (* mux.ReadConnectRequest *)
  ReadAuthRequest : nat -> error + AuthRequest;       (* mux.ReadAuthRequest *)
  VerifyUser : CipherConfig -> string -> bool;        (* DefaultServerCipher.VerifyUser *)
  IsValidCompressor : string -> bool;                 (* mux.IsValidCompressor *)
  addP2spSession : string -> string -> nat -> bool;
  net_DialTimeout : string -> string -> Z -> error + nat;
  url_Parse : string -> error + string;
  GetMuxStreamByURL : string -> string -> CipherConfig -> error + nat;
  stream_Connect : nat -> string -> string -> StreamOptions -> option error;
  hasDeadline : Dest -> bool;                         (* c.(DeadLineAccetor) *)
  writerIsCloser : nat -> string -> bool;             (* streamWriter.(io.Closer) *)
  readerIsCloser : nat -> string -> bool;             (* streamReader.(io.Closer) *)
  isProxyMuxSession : nat -> bool                     (* session.( *mux.ProxyMuxSession) *)
}.

(** ** Session contexts and the shared store *)

Record sessionContext : Type := mkSessionContext {
  auth : option AuthRequest;
  activeIOTime : Z;
  streamCouter : Z;
  session : nat;
  closed : bool;
  isP2SP : bool
}.

(** The store shared by all goroutines: the allocated contexts (a
    [*sessionContext] is an index into [heap]), the [emptySessions] map
    (its keys; every value stored is [true]) and the bucket registry. *)
Record World : Type := mkWorld {
  heap : list sessionContext;
  emptySessions : gset nat;
  rl : RLState
}.

Definition world_init : World :=
  {| heap := []; emptySessions := ∅; rl := rl_init |}.

(** Tasks started with [go]. *)
Inductive Task : Type :=
| TaskProxy (stream ctx : nat)       (* go handleProxyStream(stream, ctx) *)
| TaskP2sp (stream ctx : nat)        (* go handleP2spProxyStream(stream, ctx) *)
| TaskCopyUp (c : Dest) (stream : nat). (* the copy from the stream to c, lines 180-184 *)

Inductive Event : Type :=
| EvMarkClosed (ctx : nat)
| EvRemoveP2sp (room conn : string) (s : nat)
| EvSessionClose (s : nat)
| EvEmptyDelete (ctx : nat)
| EvEmptyStore (ctx : nat)
| EvStreamClose (stream : nat)
| EvDestClose (c : Dest)
| EvAddP2sp (room conn : string) (s : nat)
| EvWriteAuthOK (stream : nat)
| EvResetCrypto (s : nat) (method : string) (counter : Z)
| EvDial (network addr : string) (timeout : Z)
| EvGetMuxStream (url user : string) (cipher : CipherConfig)
| EvConnect (next : nat) (network addr : string) (opt : StreamOptions)
| EvGo (t : Task)
| EvRateLimitReader (c : Dest) (bucket : nat)
| EvSetReadDeadline (c : Dest) (t : Z)
| EvWriterClose (stream : nat)
| EvReaderClose (stream : nat).

Definition set_auth (a : option AuthRequest) (c : sessionContext) : sessionContext :=
  {| auth := a; activeIOTime := activeIOTime c; streamCouter := streamCouter c;
     session := session c; closed := closed c; isP2SP := isP2SP c |}.

Definition set_streamCouter (n : Z) (c : sessionContext) : sessionContext :=
  {| auth := auth c; activeIOTime := activeIOTime c; streamCouter := n;
     session := session c; closed := closed c; isP2SP := isP2SP c |}.

Definition set_closed (b : bool) (c : sessionContext) : sessionContext :=
  {| auth := auth c; activeIOTime := activeIOTime c; streamCouter := streamCouter c;
     session := session c; closed := b; isP2SP := isP2SP c |}.

Definition set_isP2SP (b : bool) (c : sessionContext) : sessionContext :=
  {| auth := auth c; activeIOTime := activeIOTime c; streamCouter := streamCouter c;
     session := session c; closed := closed c; isP2SP := b |}.

(** A write through the pointer [p]. *)
Definition ctx_update (p : nat) (f : sessionContext -> sessionContext)
           (w : World) : World :=
  {| heap := alter f p (heap w); emptySessions := emptySessions w; rl := rl w |}.

Definition es_delete (p : nat) (w : World) : World :=
  {| heap := heap w; emptySessions := emptySessions w ∖ {[p]}; rl := rl w |}.

Definition es_store (p : nat) (w : World) : World :=
  {| heap := heap w; emptySessions := {[p]} ∪ emptySessions w; rl := rl w |}.

Definition set_rl (s : RLState) (w : World) : World :=
  {| heap := heap w; emptySessions := emptySessions w; rl := s |}.

(** [func (ctx *sessionContext) close()], lines 31-38. *)
Definition close (p : nat) (w : World) : World * list Event :=
  match heap w !! p with
  | None => (w, [])
  | Some ctx =>
      let w1 := ctx_update p (set_closed true) w in
      let dereg :=
        match isP2SP ctx, auth ctx with
        | true, Some a => [EvRemoveP2sp (P2SPRoomId a) (P2SPConnId a) (session ctx)]
        | _, _ => []
        end in
      (es_delete p w1,
       [EvMarkClosed p] ++ dereg ++ [EvSessionClose (session ctx); EvEmptyDelete p])
  end.

(** ** Idle session reaper, lines 74-91 *)

(** The callback given to [emptySessions.Range], at the key [p]; [now] is
    the clock reading taken in that call. *)
Definition reaper_visit (cfg : Config) (now : Z) (p : nat) (w : World)
  : World * list Event :=
  match heap w !! p with
  | None => (w, [])
  | Some ctx =>
      let ago := Sub now (activeIOTime ctx) in
      if ago >? dur_mul (SessionIdleTimeout (defaultMuxConfig cfg)) Second
      then close p w
      else (w, [])
  end.

Fixpoint reaper_range (cfg : Config) (clock : nat -> Z) (keys : list nat)
         (w : World) : World * list Event :=
  match keys with
  | [] => (w, [])
  | p :: rest =>
      let '(w1, ev1) := reaper_visit cfg (clock p) p w in
      let '(w2, ev2) := reaper_range cfg clock rest w1 in
      (w2, ev1 ++ ev2)
  end.

(** One tick of [sessionActiveTicker]; the loop only exists when a positive
    session idle timeout is configured. *)
Definition reaper_tick (cfg : Config) (clock : nat -> Z) (w : World)
  : World * list Event :=
  if SessionIdleTimeout (defaultMuxConfig cfg) >? 0
  then reaper_range cfg clock (elements (emptySessions w)) w
  else (w, []).

(** ** Stream handler, lines 103-213 *)

(** How far a call got: it returned, it is still blocked (in a copy, or on
    [closeSig]), or it dereferenced a nil pointer. *)
Inductive Status : Type :=
| Returned
| Blocked
| Panicked.

(** [atomic.AddInt32(&ctx.streamCouter, d)]. *)
Definition counter_add (p : nat) (d : Z) (w : World) : World :=
  ctx_update p (fun c => set_streamCouter (wrap32 (streamCouter c + d)) c) w.

(** Lines 104-105. *)
Definition handler_enter (p : nat) (w : World) : World :=
  es_delete p (counter_add p 1 w).

(** The deferred function of lines 106-110. *)
Definition handler_exit (p : nat) (w : World) : World :=
  let w1 := counter_add p (-1) w in
  match heap w1 !! p with
  | None => w1
  | Some c =>
      if (streamCouter c =? 0) && negb (closed c) then es_store p w1 else w1
  end.

(** Lines 124-127. *)
Definition default_maxIdleTime (cfg : Config) : Z :=
  let m := dur_mul (StreamIdleTimeout (defaultMuxConfig cfg)) Second in
  if m =? 0 then 10 * Second else m.

(** Lines 128-170: establishing the destination.  The result is the trace,
    the final value of [err], the connection [c] and [maxIdleTime]. *)
Definition connect_dest (env : Env) (cfg : Config) (a : AuthRequest)
           (creq : ConnectRequest) (maxIdleTime : Z)
  : list Event * option error * option Dest * Z :=
  let dialTimeout := if DialTimeout creq =? 0 then 10000 else DialTimeout creq in
  match Hops creq with
  | [] =>
      let d := dur_mul dialTimeout Millisecond in
      match net_DialTimeout env (Network creq) (Addr creq) d with
      | inl e => ([EvDial (Network creq) (Addr creq) d], Some e, None, maxIdleTime)
      | inr conn =>
          ([EvDial (Network creq) (Addr creq) d], None, Some (DConn conn),
           if ReadTimeout creq >? 0
           then dur_mul (ReadTimeout creq) Millisecond
           else maxIdleTime)
      end
  | next :: nextHops =>
      match url_Parse env next with
      | inl e => ([], Some e, None, maxIdleTime)
      | inr nextURL =>
          let get := EvGetMuxStream nextURL (User a) (DefaultServerCipher cfg) in
          match GetMuxStreamByURL env nextURL (User a) (DefaultServerCipher cfg) with
          | inl e => ([get], Some e, None, maxIdleTime)
          | inr nextStream =>
              let opt := {| so_DialTimeout := DialTimeout creq;
                            so_ReadTimeout := ReadTimeout creq;
                            so_Hops := nextHops |} in
              let con := EvConnect nextStream (Network creq) (Addr creq) opt in
              match stream_Connect env nextStream (Network creq) (Addr creq) opt with
              | Some e => ([get; con], Some e, None, maxIdleTime)
              | None => ([get; con], None, Some (DStream nextStream), maxIdleTime)
              end
          end
      end
  end.

(** What one turn of the loop of lines 194-205 observes: the clock when the
    deadline is set, the error of [io.CopyBuffer], and, read after the copy,
    the clock and [stream.LatestIOTime()]. *)
Record CopyObs : Type := mkCopyObs {
  obs_deadline_now : Z;
  obs_err : option error;
  obs_now : Z;
  obs_latestIO : Z
}.

(** Line 199. *)
Definition retry_copy (maxIdleTime : Z) (o : CopyObs) : bool :=
  isTimeoutErr (obs_err o) && (Sub (obs_now o) (obs_latestIO o) <? maxIdleTime).

(** The loop of lines 194-205 over the observations of its turns; the
    boolean tells whether the loop reached [break]. *)
Fixpoint relay_loop (hasDL : bool) (c : Dest) (stream : nat) (maxIdleTime : Z)
         (obs : list CopyObs) : list Event * bool :=
  match obs with
  | [] => ([], false)
  | o :: rest =>
      let dl := if hasDL
                then [EvSetReadDeadline c (Add (obs_deadline_now o) maxIdleTime)]
                else [] in
      if retry_copy maxIdleTime o
      then let '(ev, fin) := relay_loop hasDL c stream maxIdleTime rest in
           (dl ++ ev, fin)
      else (dl ++ [EvDestClose c; EvStreamClose stream], true)
  end.

(** Lines 111-212, between the entry bookkeeping and the deferred exit.
    [obs] are the observations of the loop's turns and [closeSig] tells
    whether the copy task's signal arrives. *)
Definition handler_body (env : Env) (cfg : Config) (stream p : nat)
           (obs : list CopyObs) (closeSig : bool) (w : World)
  : World * list Event * Status :=
  match ReadConnectRequest env stream with
  | inl _ => (w, [EvStreamClose stream], Returned)
  | inr creq =>
      match auth <$> (heap w !! p) with
      | Some (Some a) =>
          if negb (Allowed env (Addr creq)) then (w, [EvStreamClose stream], Returned)
          else
            match connect_dest env cfg a creq (default_maxIdleTime cfg) with
            | (ev, Some _, _, _) => (w, ev ++ [EvStreamClose stream], Returned)
            | (ev, None, None, _) => (w, ev, Panicked)
            | (ev, None, Some c, maxIdleTime) =>
                let '(bucket, rl', _) :=
                  getRateLimitBucket (ToBytes env) (DefaultServerRateLimit cfg)
                                     (User a) (rl w) in
                let wrap := match bucket with
                            | Some r => [EvRateLimitReader c r]
                            | None => []
                            end in
                let '(lev, fin) :=
                  relay_loop (hasDeadline env c) c stream maxIdleTime obs in
                let ev1 := ev ++ [EvGo (TaskCopyUp c stream)] ++ wrap ++ lev in
                if fin && closeSig then
                  (set_rl rl' w,
                   ev1
                   ++ (if writerIsCloser env stream (CompressMethod a)
                       then [EvWriterClose stream] else [])
                   ++ (if readerIsCloser env stream (CompressMethod a)
                       then [EvReaderClose stream] else [])
                   ++ [EvDestClose c],
                   Returned)
                else (set_rl rl' w, ev1, Blocked)
            end
      | _ => (w, [], Panicked)
      end
  end.

(** [handleProxyStream(stream, ctx)] run without interruption.  The deferred
    exit runs when the body returns or panics, not while it is blocked. *)
Definition handleProxyStream (env : Env) (cfg : Config) (stream p : nat)
           (obs : list CopyObs) (closeSig : bool) (w : World)
  : World * list Event * Status :=
  let '(w1, ev, st) := handler_body env cfg stream p obs closeSig (handler_enter p w) in
  match st with
  | Blocked => (w1, ev, Blocked)
  | _ => (handler_exit p w1, ev, st)
  end.

(** ** Accept loop and auth handshake, lines 217-272 *)

(** Lines 218-221: a fresh context. *)
Definition sess_new (s : nat) (a : option AuthRequest) (now : Z) (w : World)
  : nat * World :=
  (length (heap w),
   {| heap := heap w ++ [ {| auth := a; activeIOTime := now; streamCouter := 0;
                             session := s; closed := false; isP2SP := false |} ];
      emptySessions := emptySessions w; rl := rl w |}).

Inductive IterResult : Type :=
| Continue
| Return (err : option error).

(** Lines 255-262, after a successful handshake. *)
Definition auth_ok (env : Env) (s stream : nat) (recvAuth : AuthRequest)
  : list Event :=
  [EvWriteAuthOK stream; EvStreamClose stream]
  ++ (if isProxyMuxSession env s
      then [EvResetCrypto s (CipherMethod recvAuth) (CipherCounter recvAuth)]
      else []).

(** One turn of the loop of lines 223-271, given what [AcceptStream]
    returned. *)
Definition serve_iter (env : Env) (cfg : Config) (s p : nat)
           (acc : error + nat) (w : World) : World * list Event * IterResult :=
  match acc with
  | inl e => (w, [], Return (Some e))
  | inr stream =>
      match heap w !! p with
      | None => (w, [], Continue)
      | Some ctx =>
          match auth ctx with
          | None =>
              match ReadAuthRequest env stream with
              | inl _ => (w, [], Continue)
              | inr recvAuth =>
                  if negb (VerifyUser env (DefaultServerCipher cfg) (User recvAuth))
                  then (w, [EvSessionClose s], Return (Some ErrAuthFailed))
                  else if negb (IsValidCompressor env (CompressMethod recvAuth))
                  then (w, [EvSessionClose s], Return (Some ErrAuthFailed))
                  else
                    let w1 := ctx_update p (set_auth (Some recvAuth)) w in
                    if 0 <? Z.of_nat (String.length (P2SPRoomId recvAuth)) then
                      let add := EvAddP2sp (P2SPRoomId recvAuth) (P2SPConnId recvAuth) s in
                      if negb (addP2spSession env (P2SPRoomId recvAuth)
                                              (P2SPConnId recvAuth) s)
                      then (w1, [add; EvSessionClose s], Return (Some ErrAuthFailed))
                      else (ctx_update p (set_isP2SP true) w1,
                            add :: auth_ok env s stream recvAuth, Continue)
                    else (w1, auth_ok env s stream recvAuth, Continue)
              end
          | Some _ =>
              (w, [EvGo (if isP2SP ctx then TaskP2sp stream p else TaskProxy stream p)],
               Continue)
          end
      end
  end.

(** The loop over the results of successive [AcceptStream] calls, resumable
    from any store; [None] means the loop is blocked in [AcceptStream].  A
    return runs the deferred [ctx.close()]. *)
Fixpoint serve_loop (env : Env) (cfg : Config) (s p : nat)
         (accepts : list (error + nat)) (w : World)
  : World * list Event * option (option error) :=
  match accepts with
  | [] => (w, [], None)
  | acc :: rest =>
      let '(w1, ev, r) := serve_iter env cfg s p acc w in
      match r with
      | Continue =>
          let '(w2, ev2, res) := serve_loop env cfg s p rest w1 in
          (w2, ev ++ ev2, res)
      | Return err =>
          let '(w2, ev2) := close p w1 in
          (w2, ev ++ ev2, Some err)
      end
  end.

Definition ServProxyMuxSession (env : Env) (cfg : Config) (s : nat)
           (a : option AuthRequest) (now : Z) (accepts : list (error + nat))
           (w : World) : World * list Event * option (option error) :=
  let '(p, w0) := sess_new s a now w in
  serve_loop env cfg s p accepts w0.

(** ** Concurrency model for the bookkeeping of contexts

    The goroutines of the program (accept loops, stream handlers, the
    reaper) act on the shared store.  An [Act] is one of their steps; the
    entry of a handler (lines 104-105), its deferred exit (106-110) and
    [close] are taken as indivisible.  [active] counts, per context, the
    handlers between entry and exit; a handler can only exit after it
    entered. *)

Inductive Act : Type :=
| ANew (s : nat) (a : option AuthRequest) (now : Z)   (* lines 218-221 *)
| AServe (env : Env) (cfg : Config) (s p : nat) (acc : error + nat)
                                                      (* one turn of the accept loop *)
| AEnter (p : nat)
| AExit (p : nat)
| AReap (cfg : Config) (now : Z) (p : nat).           (* the reaper's visit of p *)

Record Sys : Type := mkSys {
  world : World;
  active : list nat
}.

Definition sys_init : Sys := {| world := world_init; active := [] |}.

(** The most handlers that run at once on one session: below the range of
    [int32]. *)
Definition max_handlers : Z := 2^31 - 1.

Definition sys_step (a : Act) (st : Sys) : option Sys :=
  match a with
  | ANew s au now =>
      Some {| world := (sess_new s au now (world st)).2; active := active st ++ [0%nat] |}
  | AServe env cfg s p acc =>
      match heap (world st) !! p with
      | None => None
      | Some _ =>
          let '(w1, _, r) := serve_iter env cfg s p acc (world st) in
          match r with
          | Continue => Some {| world := w1; active := active st |}
          | Return _ => Some {| world := (close p w1).1; active := active st |}
          end
      end
  | AEnter p =>
      match active st !! p with
      | Some n =>
          if Z.of_nat n <? max_handlers
          then Some {| world := handler_enter p (world st);
                       active := <[p := S n]> (active st) |}
          else None
      | None => None
      end
  | AExit p =>
      match active st !! p with
      | Some (S n) =>
          Some {| world := handler_exit p (world st);
                  active := <[p := n]> (active st) |}
      | _ => None
      end
  | AReap cfg now p =>
      Some {| world := (reaper_visit cfg now p (world st)).1; active := active st |}
  end.

Fixpoint sys_run (acts : list Act) (st : Sys) : option Sys :=
  match acts with
  | [] => Some st
  | a :: rest =>
      match sys_step a st with
      | Some st' => sys_run rest st'
      | None => None
      end
  end.

(** A sequence of registry calls. *)
Fixpoint rl_calls (tb : string -> error + Z) (cfg : RateLimitConfig)
         (users : list string) (st : RLState) : RLState :=
  match users with
  | [] => st
  | u :: rest => rl_calls tb cfg rest (rl_state (getRateLimitBucket tb cfg u st))
  end.

(** ** Vocabulary of the properties, and example data *)

(** A [helper.ToBytes] on which "1000" is one thousand bytes, "0" is zero
    and nothing else parses. *)
Definition tb_ex (l : string) : error + Z :=
  if String.eqb l "1000" then inr 1000
  else if String.eqb l "0" then inr 0
  else inl (OtherError "invalid byte quantity").

Definition limit_alice : RateLimitConfig :=
  {| Limit := Some {[ "alice"%string := "1000"%string ]} |}.

Definition limit_star : RateLimitConfig :=
  {| Limit := Some {[ "*"%string := "1000"%string ]} |}.

(** The deadline set at the top of a turn (lines 195-197). *)
Definition deadline_event (hasDL : bool) (c : Dest) (maxIdleTime : Z)
           (o : CopyObs) : list Event :=
  if hasDL then [EvSetReadDeadline c (Add (obs_deadline_now o) maxIdleTime)] else [].

Definition obs_silent_dest : CopyObs :=
  {| obs_deadline_now := 0; obs_err := Some (NetError true "i/o timeout");
     obs_now := 10 * Second; obs_latestIO := 5 * Second |}.

Definition obs_eof : CopyObs :=
  {| obs_deadline_now := 10 * Second; obs_err := None;
     obs_now := 12 * Second; obs_latestIO := 12 * Second |}.

Definition auth_alice : AuthRequest :=
  {| User := "alice"; CipherMethod := "chacha20poly1305"; CipherCounter := 7;
     CompressMethod := "snappy"; P2SPRoomId := ""; P2SPConnId := "" |}.

Definition auth_bob : AuthRequest :=
  {| User := "bob"; CipherMethod := "chacha20poly1305"; CipherCounter := 1;
     CompressMethod := "none"; P2SPRoomId := ""; P2SPConnId := "" |}.

Definition auth_mallory : AuthRequest :=
  {| User := "mallory"; CipherMethod := "none"; CipherCounter := 0;
     CompressMethod := "snappy"; P2SPRoomId := ""; P2SPConnId := "" |}.

Definition auth_badcomp : AuthRequest :=
  {| User := "alice"; CipherMethod := "none"; CipherCounter := 0;
     CompressMethod := "lzma"; P2SPRoomId := ""; P2SPConnId := "" |}.

Definition auth_room (room : string) : AuthRequest :=
  {| User := "alice"; CipherMethod := "none"; CipherCounter := 0;
     CompressMethod := "snappy"; P2SPRoomId := room; P2SPConnId := "c1" |}.

Definition creq_direct : ConnectRequest :=
  {| Network := "tcp"; Addr := "example.org:80"; DialTimeout := 0;
     ReadTimeout := 5000; Hops := [] |}.

Definition creq_hops : ConnectRequest :=
  {| Network := "tcp"; Addr := "example.org:80"; DialTimeout := 3000;
     ReadTimeout := 5000; Hops := ["tcp://hopA:48100"%string; "tcp://hopB:48100"%string] |}.

Definition creq_blocked : ConnectRequest :=
  {| Network := "tcp"; Addr := "10.0.0.1:22"; DialTimeout := 0;
     ReadTimeout := 0; Hops := [] |}.

Definition creq_unreachable : ConnectRequest :=
  {| Network := "tcp"; Addr := "down.example.org:80"; DialTimeout := 0;
     ReadTimeout := 0; Hops := [] |}.

(** Streams 1-5 carry handshakes, 7-10 connect requests; everything else
    fails to parse. *)
Definition env_ex : Env :=
  {| ToBytes := tb_ex;
     Allowed := fun addr => negb (String.eqb addr "10.0.0.1:22");
     ReadConnectRequest := fun st =>
       match st with
       | 7%nat => inr creq_direct
       | 8%nat => inr creq_hops
       | 9%nat => inr creq_blocked
       | 10%nat => inr creq_unreachable
       | _ => inl (OtherError "unexpected EOF")
       end;
     ReadAuthRequest := fun st =>
       match st with
       | 1%nat => inr auth_alice
       | 2%nat => inr auth_mallory
       | 3%nat => inr auth_badcomp
       | 4%nat => inr (auth_room "full")
       | 5%nat => inr (auth_room "lobby")
       | _ => inl (OtherError "unexpected EOF")
       end;
     VerifyUser := fun _ u => String.eqb u "alice" || String.eqb u "bob";
     IsValidCompressor := fun m => String.eqb m "snappy" || String.eqb m "none";
     addP2spSession := fun room _ _ => String.eqb room "lobby";
     net_DialTimeout := fun _ addr _ =>
       if String.eqb addr "example.org:80" then inr 100%nat
       else inl (NetError true "dial timeout");
     url_Parse := fun u =>
       if String.eqb u "" then inl (OtherError "empty url") else inr u;
     GetMuxStreamByURL := fun u _ _ =>
       if String.eqb u "tcp://hopA:48100" then inr 200%nat
       else inl (OtherError "no route");
     stream_Connect := fun _ _ _ _ => None;
     hasDeadline := fun c => match c with DConn _ => true | DStream _ => false end;
     writerIsCloser := fun _ m => String.eqb m "snappy";
     readerIsCloser := fun _ _ => false;
     isProxyMuxSession := fun _ => true |}.

Definition cfg_ex : Config :=
  {| defaultMuxConfig := {| SessionIdleTimeout := 60; StreamIdleTimeout := 0 |};
     DefaultServerCipher :=
       {| cipher_User := "relay-server"; cipher_Method := "chacha20poly1305";
          cipher_Key := "k" |};
     DefaultServerRateLimit := {| Limit := None |} |}.

(** A store with one authenticated context, for user alice, on session 50. *)
Definition world_alice : World :=
  (sess_new 50 (Some auth_alice) 0 world_init).2.

(** A store with one context still waiting for its handshake. *)
Definition world_fresh : World :=
  (sess_new 50 None 0 world_init).2.

(** C2, as the spec states it: the outbound stream to the first hop is
    acquired with this server's own identity, that is, with an identity
    fixed by the server's configuration, whoever the inbound session
    belongs to. *)
Definition hop_uses_server_identity : Prop :=
  exists ident : Config -> string,
  forall (env : Env) (cfg : Config) (a : AuthRequest) (creq : ConnectRequest)
         (next : string) (nextHops : list string) (url : string),
    Hops creq = next :: nextHops ->
    url_Parse env next = inr url ->
    EvGetMuxStream url (ident cfg) (DefaultServerCipher cfg)
      ∈ (connect_dest env cfg a creq (default_maxIdleTime cfg)).1.1.1.

(** C6, as the spec states it: a nonzero read timeout replaces the idle
    timeout of the relay loop on every way of reaching the destination. *)
Definition read_timeout_always_overrides : Prop :=
  forall (env : Env) (cfg : Config) (a : AuthRequest) (creq : ConnectRequest)
         (ev : list Event) (c : Dest) (m : Z),
    ReadTimeout creq ≠ 0 ->
    connect_dest env cfg a creq (default_maxIdleTime cfg) = (ev, None, Some c, m) ->
    m = dur_mul (ReadTimeout creq) Millisecond.

(** What a step leaves alone: a step that only writes [auth] and [isP2SP]
    of contexts keeps the other fields, the size of the heap and the
    idle-candidate set. *)
Definition same_book (w w' : World) : Prop :=
  emptySessions w' = emptySessions w /\
  length (heap w') = length (heap w) /\
  forall q c, heap w !! q = Some c ->
    exists c', heap w' !! q = Some c' /\
               streamCouter c' = streamCouter c /\ closed c' = closed c /\
               activeIOTime c' = activeIOTime c /\ session c' = session c.

(** The invariant of the bookkeeping: [streamCouter] is the number of
    handlers running on the context, and a member of [emptySessions] has no
    running handler and is not closed. *)
Definition sys_inv (st : Sys) : Prop :=
  length (active st) = length (heap (world st)) /\
  forall p ctx n,
    heap (world st) !! p = Some ctx -> active st !! p = Some n ->
    streamCouter ctx = Z.of_nat n /\ Z.of_nat n <= max_handlers /\
    (p ∈ emptySessions (world st) -> n = 0%nat /\ closed ctx = false).

(** What no step undoes: a context stays allocated, keeps its
    [activeIOTime] and its session, and stays closed once closed. *)
Definition evolves (w w' : World) : Prop :=
  forall q c, heap w !! q = Some c ->
    exists c', heap w' !! q = Some c' /\
               activeIOTime c' = activeIOTime c /\ session c' = session c /\
               (closed c = true -> closed c' = true).

(** C5, as the spec states it: in every state the program reaches, a
    context is in [emptySessions] if and only if its counter is zero and it
    is not closed. *)
Definition idle_set_iff_zero_and_open : Prop :=
  forall (acts : list Act) (st : Sys) (p : nat) (ctx : sessionContext),
    sys_run acts sys_init = Some st ->
    heap (world st) !! p = Some ctx ->
    (p ∈ emptySessions (world st) <-> streamCouter ctx = 0 /\ closed ctx = false).

Definition obs_busy (t : Z) : CopyObs :=
  {| obs_deadline_now := (t - 5) * Second; obs_err := Some ErrTimeout;
     obs_now := t * Second; obs_latestIO := (t - 1) * Second |}.

Definition obs_done (t : Z) : CopyObs :=
  {| obs_deadline_now := (t - 1) * Second; obs_err := None;
     obs_now := t * Second; obs_latestIO := t * Second |}.

(** The session of [world_alice] (created at time 0, idle timeout 60 s)
    after one stream to example.org that was relayed, with I/O on the stream
    every few seconds, until second 1000. *)
Definition world_after_relay : World :=
  (handleProxyStream env_ex cfg_ex 7 0 [obs_busy 400; obs_busy 800; obs_done 1000]
                     true world_alice).1.1.

(** The reaper's tick at second 1001. *)
Definition world_reaped : World :=
  (reaper_tick cfg_ex (fun _ => 1001 * Second) world_after_relay).1.

(** C9, as the spec states it: the teardown is guarded, so when the reaper
    has closed a context, the deferred close of the accept loop, run when
    [AcceptStream] then fails, neither marks the context closed nor closes
    its session a second time. *)
Definition teardown_once : Prop :=
  forall (env : Env) (cfg : Config) (now : Z) (s p : nat) (e : error)
         (w : World) (ctx : sessionContext),
    heap w !! p = Some ctx -> session ctx = s ->
    let reaped := reaper_visit cfg now p w in
    let returned := serve_loop env cfg s p [inl e] reaped.1 in
    EvMarkClosed p ∈ reaped.2 ->
    (EvMarkClosed p ∉ returned.1.2) /\ (EvSessionClose s ∉ returned.1.2).

(** ** Vocabulary of the further properties *)

(** Registry calls under configurations that may change from call to
    call. *)
Fixpoint rl_run (tb : string -> error + Z)
         (calls : list (RateLimitConfig * string)) (st : RLState) : RLState :=
  match calls with
  | [] => st
  | (cfg, u) :: rest => rl_run tb rest (rl_state (getRateLimitBucket tb cfg u st))
  end.

(** Shape of the registry: as many buckets as keys, every cached pointer
    allocated, and no bucket shared by two keys. *)
Definition rl_wf (st : RLState) : Prop :=
  size (rateLimitBuckets st) = length (bucketHeap st) /\
  (forall k r, rateLimitBuckets st !! k = Some r -> (r < length (bucketHeap st))%nat) /\
  (forall k1 k2 r, rateLimitBuckets st !! k1 = Some r ->
                   rateLimitBuckets st !! k2 = Some r -> k1 = k2).

Definition limit_zero_alice : RateLimitConfig :=
  {| Limit := Some (<[ "alice"%string := "0"%string ]> {[ "*"%string := "1000"%string ]}) |}.

Definition limit_two : RateLimitConfig :=
  {| Limit := Some (<[ "alice"%string := "1000"%string ]> {[ "bob"%string := "1000"%string ]}) |}.

(** Line 82 at the key [p]: whether the reaper finds the context overdue. *)
Definition reaper_due (cfg : Config) (clock : nat -> Z) (w : World) (p : nat) : bool :=
  match heap w !! p with
  | Some ctx =>
      Sub (clock p) (activeIOTime ctx)
        >? dur_mul (SessionIdleTimeout (defaultMuxConfig cfg)) Second
  | None => false
  end.

Definition is_auth_ok (e : Event) : bool :=
  match e with EvWriteAuthOK _ => true | _ => false end.

Definition is_reset (e : Event) : bool :=
  match e with EvResetCrypto _ _ _ => true | _ => false end.

Definition is_go (e : Event) : bool :=
  match e with EvGo _ => true | _ => false end.

(** How many events of a trace satisfy [f]. *)
Fixpoint count_events (f : Event -> bool) (tr : list Event) : nat :=
  match tr with
  | [] => 0%nat
  | e :: rest => ((if f e then 1 else 0) + count_events f rest)%nat
  end.

(** Lines 265-269: the task an accepted stream is handed to. *)
Definition dispatch (ctx : sessionContext) (p stream : nat) : Event :=
  EvGo (if isP2SP ctx then TaskP2sp stream p else TaskProxy stream p).

(** * Properties *)

(** ** Arithmetic *)

Lemma wrap64_small z : minInt64 <= z <= maxInt64 -> wrap64 z = z.
Proof.
  unfold wrap64, minInt64, maxInt64. intros H.
  rewrite Z.mod_small; lia.
Qed.

Lemma wrap32_small z : - 2^31 <= z < 2^31 -> wrap32 z = z.
Proof.
  unfold wrap32. intros H. rewrite Z.mod_small; lia.
Qed.

Lemma wrap32_range z : - 2^31 <= wrap32 z < 2^31.
Proof.
  unfold wrap32. pose proof (Z.mod_pos_bound (z + 2^31) (2^32)). lia.
Qed.

Lemma Sub_exact t u : minInt64 <= t - u <= maxInt64 -> Sub t u = t - u.
Proof.
  unfold Sub. intros H.
  destruct (Z.gtb_spec (t - u) maxInt64); [lia |].
  destruct (Z.ltb_spec (t - u) minInt64); [lia | reflexivity].
Qed.


(** ** Rate limiter registry *)

Section RateLimitFacts.

Variable tb : string -> error + Z.
Variable cfg : RateLimitConfig.

Lemma limitPerSec_empty : limitPerSec tb "" = -1.
Proof. reflexivity. Qed.

Lemma limitPerSec_parse_error l e : tb l = inl e -> limitPerSec tb l = -1.
Proof. unfold limitPerSec. intros ->. by destruct (0 <? _). Qed.

Lemma limitPerSec_parsed l v :
  l ≠ ""%string -> tb l = inr v -> limitPerSec tb l = wrap64 v.
Proof.
  unfold limitPerSec. intros Hl ->.
  destruct l as [|c l]; [done |]. reflexivity.
Qed.

Lemma limit_entry_key user key l :
  limit_entry cfg user = Some (key, l) ->
  configured cfg key = Some l /\ (key = user \/ key = "*"%string).
Proof.
  unfold limit_entry, configured. destruct (Limit cfg) as [m|]; [| done].
  destruct (m !! user) as [l1|] eqn:E1.
  - intros [= <- <-]. auto.
  - destruct (m !! "*"%string) as [l2|] eqn:E2; [| done].
    intros [= <- <-]. auto.
Qed.

(** No bucket is returned exactly when rate limiting is disabled, no entry
    applies, or the entry's byte count is not positive. *)
Lemma getRateLimitBucket_None user st :
  rl_result (getRateLimitBucket tb cfg user st) = None <->
  Limit cfg = None \/
  (exists m, Limit cfg = Some m /\ m !! user = None /\ m !! "*"%string = None) \/
  (exists key l, limit_entry cfg user = Some (key, l) /\ limitPerSec tb l <= 0).
Proof.
  unfold getRateLimitBucket, rl_result. split.
  - destruct (limit_entry cfg user) as [[key l]|] eqn:E.
    + destruct (Z.leb_spec (limitPerSec tb l) 0) as [Hle|Hgt].
      * intros _. right. right. eauto.
      * destruct (rateLimitBuckets st !! key); simpl; discriminate.
    + intros _. unfold limit_entry in E.
      destruct (Limit cfg) as [m|]; [| by left].
      right. left. exists m.
      destruct (m !! user); [done |]. destruct (m !! "*"%string); [done |]. done.
  - intros [H | [(m & Hm & Hu & Hs) | (key & l & E & Hle)]].
    + unfold limit_entry. by rewrite H.
    + unfold limit_entry. by rewrite Hm, Hu, Hs.
    + rewrite E. destruct (Z.leb_spec (limitPerSec tb l) 0); [done | lia].
Qed.

(** A call that finds its key cached returns the cached pointer and leaves
    the registry as it was: a bucket is created at most once per key. *)
Lemma getRateLimitBucket_cached user st key l r :
  limit_entry cfg user = Some (key, l) -> 0 < limitPerSec tb l ->
  rateLimitBuckets st !! key = Some r ->
  getRateLimitBucket tb cfg user st = (Some r, st, [RLLock; RLLoad key; RLUnlock]).
Proof.
  intros E Hpos Hr. unfold getRateLimitBucket. rewrite E.
  destruct (Z.leb_spec (limitPerSec tb l) 0); [lia |]. by rewrite Hr.
Qed.

(** A call that misses allocates one bucket and caches it under its key. *)
Lemma getRateLimitBucket_fresh user st key l :
  limit_entry cfg user = Some (key, l) -> 0 < limitPerSec tb l ->
  rateLimitBuckets st !! key = None ->
  let r := length (bucketHeap st) in
  let b := NewBucket (1 * Second) (limitPerSec tb l) in
  getRateLimitBucket tb cfg user st =
    (Some r,
     {| rateLimitBuckets := <[key := r]> (rateLimitBuckets st);
        bucketHeap := bucketHeap st ++ [b] |},
     [RLLock; RLLoad key; RLAlloc r b; RLStore key r; RLUnlock]).
Proof.
  intros E Hpos Hr. unfold getRateLimitBucket. rewrite E.
  destruct (Z.leb_spec (limitPerSec tb l) 0); [lia |]. by rewrite Hr.
Qed.

(** The registry is only touched between [Lock] and the deferred
    [Unlock]. *)
Lemma getRateLimitBucket_locked user st :
  rl_trace (getRateLimitBucket tb cfg user st) = [] \/
  exists mid, rl_trace (getRateLimitBucket tb cfg user st) = RLLock :: (mid ++ [RLUnlock])
              /\ (RLLock ∉ mid) /\ (RLUnlock ∉ mid).
Proof.
  unfold getRateLimitBucket, rl_trace.
  destruct (limit_entry cfg user) as [[key l]|]; [| by left].
  destruct (limitPerSec tb l <=? 0); [by left |].
  destruct (rateLimitBuckets st !! key) as [r|]; right; simpl.
  - exists [RLLoad key]. split; [done |]. split; intros H; by apply list_elem_of_singleton in H.
  - eexists [RLLoad key; RLAlloc _ _; RLStore key _]. split; [done |].
    split; intros H; repeat (apply elem_of_cons in H as [H|H]; [done |]);
      by apply elem_of_nil in H.
Qed.

(** Entries of the registry are never removed or replaced. *)
Lemma getRateLimitBucket_stable user st key r :
  rateLimitBuckets st !! key = Some r ->
  rateLimitBuckets (rl_state (getRateLimitBucket tb cfg user st)) !! key = Some r.
Proof.
  intros Hr. unfold getRateLimitBucket, rl_state.
  destruct (limit_entry cfg user) as [[k l]|]; [| done].
  destruct (limitPerSec tb l <=? 0); [done |].
  destruct (rateLimitBuckets st !! k) as [r'|] eqn:Ek; simpl; [done |].
  rewrite lookup_insert_ne; [done |]. intros ->. congruence.
Qed.

Lemma rl_calls_stable users st key r :
  rateLimitBuckets st !! key = Some r ->
  rateLimitBuckets (rl_calls tb cfg users st) !! key = Some r.
Proof.
  revert st. induction users as [|u users IH]; intros st Hr; simpl; [done |].
  apply IH. by apply getRateLimitBucket_stable.
Qed.

Lemma rl_inv_init : rl_inv tb cfg rl_init.
Proof. intros key r H. simpl in H. by rewrite lookup_empty in H. Qed.

Lemma rl_inv_call user st :
  rl_inv tb cfg st -> rl_inv tb cfg (rl_state (getRateLimitBucket tb cfg user st)).
Proof.
  intros Hinv. unfold getRateLimitBucket, rl_state.
  destruct (limit_entry cfg user) as [[k l]|] eqn:E; [| done].
  destruct (Z.leb_spec (limitPerSec tb l) 0) as [Hle|Hgt]; [done |].
  destruct (rateLimitBuckets st !! k) as [r'|] eqn:Ek; simpl; [done |].
  intros key r Hkr. simpl in *.
  destruct (decide (k = key)) as [->|Hne].
  - rewrite lookup_insert_eq in Hkr. injection Hkr as <-.
    exists l. split; [by apply (limit_entry_key user) |]. split; [done |].
    rewrite lookup_app_r by lia. by rewrite Nat.sub_diag.
  - rewrite lookup_insert_ne in Hkr by done.
    destruct (Hinv key r Hkr) as (l' & Hc & Hp & Hb).
    exists l'. split; [done |]. split; [done |].
    by apply lookup_app_l_Some.
Qed.

Lemma rl_reachable_inv st : rl_reachable tb cfg st -> rl_inv tb cfg st.
Proof.
  induction 1; [apply rl_inv_init | by apply rl_inv_call].
Qed.

(** What a returned bucket is, in any registry the process can reach: the
    configured byte count is its capacity, and it refills by one token per
    second. *)
Lemma getRateLimitBucket_bucket user st r :
  rl_reachable tb cfg st ->
  rl_result (getRateLimitBucket tb cfg user st) = Some r ->
  exists key l b,
    limit_entry cfg user = Some (key, l) /\ 0 < limitPerSec tb l /\
    bucketHeap (rl_state (getRateLimitBucket tb cfg user st)) !! r = Some b /\
    capacity b = limitPerSec tb l /\ fillInterval b = Second /\ Rate b = 1.
Proof.
  intros Hreach Hres.
  pose proof (rl_reachable_inv _ (rl_reach_call tb cfg st user Hreach)) as Hinv.
  revert Hres Hinv. unfold getRateLimitBucket, rl_result, rl_state.
  destruct (limit_entry cfg user) as [[k l]|] eqn:E; [| done].
  destruct (Z.leb_spec (limitPerSec tb l) 0) as [Hle|Hgt]; [done |].
  pose proof (limit_entry_key _ _ _ E) as [Hc _].
  destruct (rateLimitBuckets st !! k) as [r'|] eqn:Ek; simpl;
    intros [= <-] Hinv.
  - destruct (Hinv k r' Ek) as (l' & Hc' & Hp & Hb).
    assert (l' = l) as -> by congruence.
    exists k, l, (NewBucket (1 * Second) (limitPerSec tb l)). done.
  - destruct (Hinv k (length (bucketHeap st))) as (l' & Hc' & Hp & Hb).
    { simpl. apply lookup_insert_eq. }
    assert (l' = l) as -> by congruence.
    exists k, l, (NewBucket (1 * Second) (limitPerSec tb l)). done.
Qed.

End RateLimitFacts.

(** C7: with a limit of 1000 bytes per second configured for a user, the
    bucket [getRateLimitBucket] creates and returns is
    [NewBucket(1*time.Second, 1000)]: its capacity is 1000 tokens and it
    refills by one token per second, not by 1000. *)
Theorem getRateLimitBucket_rate_is_one_token_per_second :
  let res := getRateLimitBucket tb_ex limit_alice "alice" rl_init in
  rl_result res = Some 0%nat /\
  bucketHeap (rl_state res) = [ {| fillInterval := Second; capacity := 1000; quantum := 1 |} ] /\
  rateLimitBuckets (rl_state res) !! "alice"%string = Some 0%nat /\
  (forall b, bucketHeap (rl_state res) !! 0%nat = Some b ->
             capacity b = 1000 /\ Rate b = 1 /\ Rate b <> 1000).
Proof.
  cbv zeta. split; [reflexivity |]. split; [reflexivity |]. split; [reflexivity |].
  intros b Hb. vm_compute in Hb. injection Hb as <-.
  split; [reflexivity |]. split; [reflexivity | discriminate].
Qed.

(** C10: when neither of two users has an entry of their own and the
    wildcard entry gives a positive rate, both are served from the key "*":
    the first call returns a bucket pointer, and the second call, however
    many calls lie in between, returns the same pointer, which is the one
    cached under "*". *)
Theorem wildcard_bucket_shared
        (tb : string -> error + Z) (cfg : RateLimitConfig)
        (m : gmap string string) (u1 u2 l : string) (st : RLState)
        (between : list string) :
  Limit cfg = Some m ->
  m !! u1 = None -> m !! u2 = None -> m !! "*"%string = Some l ->
  0 < limitPerSec tb l ->
  let c1 := getRateLimitBucket tb cfg u1 st in
  let c2 := getRateLimitBucket tb cfg u2 (rl_calls tb cfg between (rl_state c1)) in
  exists r, rl_result c1 = Some r /\ rl_result c2 = Some r /\
            rateLimitBuckets (rl_state c1) !! "*"%string = Some r /\
            rateLimitBuckets (rl_state c2) !! "*"%string = Some r /\
            rl_state c2 = rl_calls tb cfg between (rl_state c1).
Proof.
  intros Hm H1 H2 Hs Hpos c1 c2.
  assert (E1 : limit_entry cfg u1 = Some ("*"%string, l)).
  { unfold limit_entry. by rewrite Hm, H1, Hs. }
  assert (E2 : limit_entry cfg u2 = Some ("*"%string, l)).
  { unfold limit_entry. by rewrite Hm, H2, Hs. }
  assert (exists r, rl_result c1 = Some r /\
                    rateLimitBuckets (rl_state c1) !! "*"%string = Some r)
    as (r & Hr1 & Hc1).
  { subst c1. destruct (rateLimitBuckets st !! "*"%string) as [r|] eqn:Ek.
    - rewrite (getRateLimitBucket_cached tb cfg u1 st _ l r E1 Hpos Ek). eauto.
    - rewrite (getRateLimitBucket_fresh tb cfg u1 st _ l E1 Hpos Ek).
      eexists. split; [reflexivity |]. apply lookup_insert_eq. }
  exists r.
  pose proof (rl_calls_stable tb cfg between _ _ _ Hc1) as Hc2.
  subst c2.
  rewrite (getRateLimitBucket_cached tb cfg u2 _ _ l r E2 Hpos Hc2).
  done.
Qed.

Lemma wildcard_bucket_shared_witness :
  exists r,
    rl_result (getRateLimitBucket tb_ex limit_star "alice" rl_init) = Some r /\
    rl_result (getRateLimitBucket tb_ex limit_star "bob"
                 (rl_calls tb_ex limit_star ["carol"%string]
                    (rl_state (getRateLimitBucket tb_ex limit_star "alice" rl_init))))
      = Some r.
Proof.
  destruct (wildcard_bucket_shared tb_ex limit_star {[ "*"%string := "1000"%string ]}
              "alice" "bob" "1000" rl_init ["carol"%string])
    as (r & H1 & H2 & _); [reflexivity | reflexivity | reflexivity | reflexivity
                           | reflexivity |].
  exists r. split; assumption.
Defined.

(** ** Relay loop *)

Section RelayLoop.

Variables (hasDL : bool) (c : Dest) (stream : nat) (maxIdleTime : Z).

Lemma relay_loop_retry o rest :
  retry_copy maxIdleTime o = true ->
  relay_loop hasDL c stream maxIdleTime (o :: rest) =
    (deadline_event hasDL c maxIdleTime o ++ (relay_loop hasDL c stream maxIdleTime rest).1,
     (relay_loop hasDL c stream maxIdleTime rest).2).
Proof.
  intros H. simpl. rewrite H.
  by destruct (relay_loop hasDL c stream maxIdleTime rest).
Qed.

Lemma relay_loop_break o rest :
  retry_copy maxIdleTime o = false ->
  relay_loop hasDL c stream maxIdleTime (o :: rest) =
    (deadline_event hasDL c maxIdleTime o ++ [EvDestClose c; EvStreamClose stream], true).
Proof. intros H. simpl. by rewrite H. Qed.

Lemma retry_copy_true o :
  retry_copy maxIdleTime o = true <->
  isTimeoutErr (obs_err o) = true /\ Sub (obs_now o) (obs_latestIO o) < maxIdleTime.
Proof.
  unfold retry_copy. rewrite andb_true_iff, Z.ltb_lt. tauto.
Qed.

Lemma retry_copy_false o :
  retry_copy maxIdleTime o = false <->
  isTimeoutErr (obs_err o) = false \/ maxIdleTime <= Sub (obs_now o) (obs_latestIO o).
Proof.
  unfold retry_copy. rewrite andb_false_iff, Z.ltb_ge. tauto.
Qed.

(** The loop reaches its [break] as soon as one turn is not retried. *)
Lemma relay_loop_terminates obs :
  Exists (fun o => retry_copy maxIdleTime o = false) obs ->
  (relay_loop hasDL c stream maxIdleTime obs).2 = true.
Proof.
  induction obs as [|o obs IH]; intros H.
  - by apply Exists_nil in H.
  - destruct (retry_copy maxIdleTime o) eqn:E.
    + rewrite relay_loop_retry by done. simpl. apply IH.
      apply Exists_cons in H as [H|H]; [congruence | done].
    + by rewrite relay_loop_break.
Qed.

(** A loop that reached its [break] has closed the destination and the
    stream, in that order, as its last two actions. *)
Lemma relay_loop_finished obs :
  (relay_loop hasDL c stream maxIdleTime obs).2 = true ->
  exists pre, (relay_loop hasDL c stream maxIdleTime obs).1 =
              pre ++ [EvDestClose c; EvStreamClose stream].
Proof.
  induction obs as [|o obs IH]; [done |].
  destruct (retry_copy maxIdleTime o) eqn:E.
  - rewrite relay_loop_retry by done. simpl. intros H.
    destruct (IH H) as [pre Hpre]. exists (deadline_event hasDL c maxIdleTime o ++ pre).
    by rewrite Hpre, app_assoc.
  - rewrite relay_loop_break by done. simpl. intros _. by eexists.
Qed.

(** While every turn is retried nothing is closed. *)
Lemma relay_loop_all_retry obs :
  Forall (fun o => retry_copy maxIdleTime o = true) obs ->
  (relay_loop hasDL c stream maxIdleTime obs).2 = false /\
  (relay_loop hasDL c stream maxIdleTime obs).1 = concat (deadline_event hasDL c maxIdleTime <$> obs).
Proof.
  induction 1 as [|o obs Ho Hobs [IH1 IH2]]; [done |].
  rewrite relay_loop_retry by done. simpl. by rewrite IH1, IH2.
Qed.

Lemma relay_loop_app pre obs :
  Forall (fun o => retry_copy maxIdleTime o = true) pre ->
  relay_loop hasDL c stream maxIdleTime (pre ++ obs) =
    (concat (deadline_event hasDL c maxIdleTime <$> pre) ++ (relay_loop hasDL c stream maxIdleTime obs).1,
     (relay_loop hasDL c stream maxIdleTime obs).2).
Proof.
  induction 1 as [|o pre Ho Hpre IH]; simpl app.
  - by destruct (relay_loop hasDL c stream maxIdleTime obs).
  - rewrite relay_loop_retry by done. rewrite IH. simpl. by rewrite app_assoc.
Qed.

End RelayLoop.

(** C3: in the destination-to-stream loop, a turn whose copy fails with a
    timeout-class error while [now - stream.LatestIOTime()] is below the
    idle timeout is retried: the loop goes on with the next turn and closes
    nothing.  A turn whose error is not of the timeout class (or is nil), or
    whose timeout comes when the stream has been silent for the idle timeout
    or longer, closes the destination and the stream and ends the loop,
    whatever would follow.  The timeout class is [pmux.ErrTimeout] and the
    [net.Error]s whose [Timeout()] is true. *)
Theorem relay_loop_retry_or_close
        (hasDL : bool) (c : Dest) (stream : nat) (maxIdleTime : Z)
        (pre : list CopyObs) (o : CopyObs) (rest : list CopyObs) :
  Forall (fun o' => isTimeoutErr (obs_err o') = true /\
                    Sub (obs_now o') (obs_latestIO o') < maxIdleTime) pre ->
  (relay_loop hasDL c stream maxIdleTime pre =
     (concat (deadline_event hasDL c maxIdleTime <$> pre), false)) /\
  (isTimeoutErr (obs_err o) = true /\ Sub (obs_now o) (obs_latestIO o) < maxIdleTime ->
   relay_loop hasDL c stream maxIdleTime (pre ++ o :: rest) =
     (concat (deadline_event hasDL c maxIdleTime <$> pre)
        ++ deadline_event hasDL c maxIdleTime o
        ++ (relay_loop hasDL c stream maxIdleTime rest).1,
      (relay_loop hasDL c stream maxIdleTime rest).2)) /\
  (isTimeoutErr (obs_err o) = false \/
   maxIdleTime <= Sub (obs_now o) (obs_latestIO o) ->
   relay_loop hasDL c stream maxIdleTime (pre ++ o :: rest) =
     (concat (deadline_event hasDL c maxIdleTime <$> pre)
        ++ deadline_event hasDL c maxIdleTime o
        ++ [EvDestClose c; EvStreamClose stream],
      true)) /\
  (forall err, isTimeoutErr err = true <->
               err = Some ErrTimeout \/ exists msg, err = Some (NetError true msg)).
Proof.
  intros Hpre.
  assert (Hpre' : Forall (fun o' => retry_copy maxIdleTime o' = true) pre).
  { eapply Forall_impl; [exact Hpre |]. intros o' H. by apply retry_copy_true. }
  split; [| split; [| split]].
  - destruct (relay_loop_all_retry hasDL c stream maxIdleTime pre Hpre') as [H2 H1].
    destruct (relay_loop hasDL c stream maxIdleTime pre); simpl in *. congruence.
  - intros H. apply retry_copy_true in H.
    rewrite relay_loop_app by done. by rewrite relay_loop_retry.
  - intros H. apply retry_copy_false in H.
    rewrite relay_loop_app by done. by rewrite relay_loop_break.
  - intros err. split.
    + destruct err as [[| | |[] msg|]|]; simpl; try discriminate; eauto.
    + intros [-> | [msg ->]]; reflexivity.
Qed.

Lemma relay_loop_retry_or_close_witness :
  relay_loop true (DConn 1) 7 (10 * Second) ([obs_silent_dest] ++ obs_eof :: []) =
    ([EvSetReadDeadline (DConn 1) (10 * Second);
      EvSetReadDeadline (DConn 1) (20 * Second);
      EvDestClose (DConn 1); EvStreamClose 7], true).
Proof.
  destruct (relay_loop_retry_or_close true (DConn 1) 7 (10 * Second)
              [obs_silent_dest] obs_eof []) as (_ & _ & H & _).
  - constructor; [| constructor]. split; [reflexivity | reflexivity].
  - apply H. left. reflexivity.
Defined.

(** ** Stream handler *)

Section Handler.

Variables (env : Env) (cfg : Config).

Lemma ctx_update_lookup p f w :
  heap (ctx_update p f w) !! p = f <$> heap w !! p.
Proof. unfold ctx_update. simpl. apply list_lookup_alter_eq. Qed.

Lemma ctx_update_lookup_ne p q f w :
  p ≠ q -> heap (ctx_update p f w) !! q = heap w !! q.
Proof. intros H. unfold ctx_update. simpl. by apply list_lookup_alter_ne. Qed.

Lemma handler_enter_lookup p w :
  heap (handler_enter p w) !! p =
    (fun c => set_streamCouter (wrap32 (streamCouter c + 1)) c) <$> heap w !! p.
Proof. unfold handler_enter, es_delete, counter_add. simpl. apply list_lookup_alter_eq. Qed.

Lemma handler_enter_auth p w :
  auth <$> heap (handler_enter p w) !! p = auth <$> heap w !! p.
Proof. rewrite handler_enter_lookup. by destruct (heap w !! p). Qed.

(** The destination is some connection exactly when no error is left. *)
Lemma connect_dest_result a creq m :
  match connect_dest env cfg a creq m with
  | (_, Some _, None, _) => True
  | (_, None, Some _, _) => True
  | _ => False
  end.
Proof.
  unfold connect_dest. destruct (Hops creq) as [|next nextHops].
  - by destruct (net_DialTimeout env _ _ _).
  - destruct (url_Parse env next); [done |].
    destruct (GetMuxStreamByURL env _ _ _); [done |].
    by destruct (stream_Connect env _ _ _ _).
Qed.

Lemma handler_body_read_fail stream p obs closeSig w e :
  ReadConnectRequest env stream = inl e ->
  handler_body env cfg stream p obs closeSig w = (w, [EvStreamClose stream], Returned).
Proof. intros H. unfold handler_body. by rewrite H. Qed.

Lemma handler_body_rejected stream p obs closeSig w creq a :
  ReadConnectRequest env stream = inr creq ->
  auth <$> heap w !! p = Some (Some a) ->
  Allowed env (Addr creq) = false ->
  handler_body env cfg stream p obs closeSig w = (w, [EvStreamClose stream], Returned).
Proof. intros H1 H2 H3. unfold handler_body. by rewrite H1, H2, H3. Qed.

Lemma handler_body_connect_fail stream p obs closeSig w creq a ev e d m :
  ReadConnectRequest env stream = inr creq ->
  auth <$> heap w !! p = Some (Some a) ->
  Allowed env (Addr creq) = true ->
  connect_dest env cfg a creq (default_maxIdleTime cfg) = (ev, Some e, d, m) ->
  handler_body env cfg stream p obs closeSig w =
    (w, ev ++ [EvStreamClose stream], Returned).
Proof. intros H1 H2 H3 H4. unfold handler_body. by rewrite H1, H2, H3, H4. Qed.

(** After the destination is established: the copy task is started, the
    reader is wrapped when a bucket applies, and the loop runs with the
    [maxIdleTime] that [connect_dest] left. *)
Lemma handler_body_relay stream p obs closeSig w creq a ev c m :
  ReadConnectRequest env stream = inr creq ->
  auth <$> heap w !! p = Some (Some a) ->
  Allowed env (Addr creq) = true ->
  connect_dest env cfg a creq (default_maxIdleTime cfg) = (ev, None, Some c, m) ->
  let g := getRateLimitBucket (ToBytes env) (DefaultServerRateLimit cfg) (User a) (rl w) in
  let wrap := match rl_result g with Some r => [EvRateLimitReader c r] | None => [] end in
  let loop := relay_loop (hasDeadline env c) c stream m obs in
  let ev1 := ev ++ [EvGo (TaskCopyUp c stream)] ++ wrap ++ loop.1 in
  handler_body env cfg stream p obs closeSig w =
    if loop.2 && closeSig
    then (set_rl (rl_state g) w,
          ev1 ++ (if writerIsCloser env stream (CompressMethod a)
                  then [EvWriterClose stream] else [])
              ++ (if readerIsCloser env stream (CompressMethod a)
                  then [EvReaderClose stream] else [])
              ++ [EvDestClose c],
          Returned)
    else (set_rl (rl_state g) w, ev1, Blocked).
Proof.
  intros H1 H2 H3 H4. unfold handler_body. rewrite H1, H2, H3, H4. simpl.
  destruct (getRateLimitBucket _ _ _ _) as [[bucket rl'] tr]. simpl.
  by destruct (relay_loop _ _ _ _ _) as [lev fin].
Qed.

(** The handler never panics when the context is authenticated. *)
Lemma handler_body_cases stream p obs closeSig w a :
  auth <$> heap w !! p = Some (Some a) ->
  (handler_body env cfg stream p obs closeSig w).2 ≠ Panicked.
Proof.
  intros Ha. destruct (ReadConnectRequest env stream) as [e|creq] eqn:E1.
  - by rewrite (handler_body_read_fail _ _ _ _ _ e).
  - destruct (Allowed env (Addr creq)) eqn:E2.
    + pose proof (connect_dest_result a creq (default_maxIdleTime cfg)) as Hc.
      destruct (connect_dest env cfg a creq (default_maxIdleTime cfg))
        as [[[ev [e|]] [c|]] m] eqn:E3; try done.
      * by rewrite (handler_body_connect_fail _ _ _ _ _ creq a ev e None m).
      * rewrite (handler_body_relay _ _ _ _ _ creq a ev c m) by done.
        by destruct (_ && _).
    + by rewrite (handler_body_rejected _ _ _ _ _ creq a).
Qed.

(** Whenever the body returns, it has closed the stream it was given. *)
Lemma handler_body_closes stream p obs closeSig w a :
  auth <$> heap w !! p = Some (Some a) ->
  (handler_body env cfg stream p obs closeSig w).2 = Returned ->
  EvStreamClose stream ∈ (handler_body env cfg stream p obs closeSig w).1.2.
Proof.
  intros Ha. destruct (ReadConnectRequest env stream) as [e|creq] eqn:E1.
  - rewrite (handler_body_read_fail _ _ _ _ _ e) by done. simpl. set_solver.
  - destruct (Allowed env (Addr creq)) eqn:E2.
    + pose proof (connect_dest_result a creq (default_maxIdleTime cfg)) as Hc.
      destruct (connect_dest env cfg a creq (default_maxIdleTime cfg))
        as [[[ev [e|]] [c|]] m] eqn:E3; try done.
      * rewrite (handler_body_connect_fail _ _ _ _ _ creq a ev e None m) by done.
        simpl. set_solver.
      * rewrite (handler_body_relay _ _ _ _ _ creq a ev c m) by done.
        destruct (relay_loop _ _ _ _ _).2 eqn:Efin; [| done].
        destruct closeSig; [| done]. simpl. intros _.
        destruct (relay_loop_finished _ _ _ _ _ Efin) as [pre ->].
        set_solver.
    + rewrite (handler_body_rejected _ _ _ _ _ creq a) by done. simpl. set_solver.
Qed.

End Handler.

Section HandlerClaims.

Variables (env : Env) (cfg : Config).

Lemma handleProxyStream_status stream p obs closeSig w :
  (handleProxyStream env cfg stream p obs closeSig w).2 =
  (handler_body env cfg stream p obs closeSig (handler_enter p w)).2.
Proof.
  unfold handleProxyStream.
  destruct (handler_body _ _ _ _ _ _ _) as [[w1 ev] st]. by destruct st.
Qed.

Lemma handleProxyStream_trace stream p obs closeSig w :
  (handleProxyStream env cfg stream p obs closeSig w).1.2 =
  (handler_body env cfg stream p obs closeSig (handler_enter p w)).1.2.
Proof.
  unfold handleProxyStream.
  destruct (handler_body _ _ _ _ _ _ _) as [[w1 ev] st]. by destruct st.
Qed.

(** C8: on an authenticated context [handleProxyStream] does not panic, and
    whenever it returns the stream it was given has been closed.  It returns
    when reading the connect request fails, when the policy rejects the
    destination, when the direct dial or a step of the hop chain fails, and,
    after a successful connection, once a turn of the relay loop is not
    retried and the copy task has signalled; in that last case the stream is
    closed as soon as the loop ends, before the signal is awaited. *)
Theorem handleProxyStream_always_closes_stream
        (stream p : nat) (obs : list CopyObs) (closeSig : bool) (w : World)
        (a : AuthRequest) :
  auth <$> heap w !! p = Some (Some a) ->
  let res := handleProxyStream env cfg stream p obs closeSig w in
  res.2 ≠ Panicked /\
  (res.2 = Returned -> EvStreamClose stream ∈ res.1.2) /\
  (forall e, ReadConnectRequest env stream = inl e -> res.2 = Returned) /\
  (forall creq, ReadConnectRequest env stream = inr creq ->
     (Allowed env (Addr creq) = false -> res.2 = Returned) /\
     (Allowed env (Addr creq) = true ->
      forall ev d m,
        (forall e, connect_dest env cfg a creq (default_maxIdleTime cfg) = (ev, Some e, d, m) ->
                   res.2 = Returned) /\
        (forall c, connect_dest env cfg a creq (default_maxIdleTime cfg) = (ev, None, Some c, m) ->
                   Exists (fun o => retry_copy m o = false) obs ->
                   EvStreamClose stream ∈ res.1.2 /\
                   (closeSig = true -> res.2 = Returned)))).
Proof.
  intros Ha res. subst res.
  rewrite handleProxyStream_status, handleProxyStream_trace.
  assert (Ha' : auth <$> heap (handler_enter p w) !! p = Some (Some a))
    by (by rewrite handler_enter_auth).
  split; [by apply (handler_body_cases env cfg _ _ _ _ _ a) |].
  split; [by apply (handler_body_closes env cfg _ _ _ _ _ a) |].
  split.
  { intros e He. by rewrite (handler_body_read_fail env cfg _ _ _ _ _ e). }
  intros creq Hc. split.
  { intros Hno. by rewrite (handler_body_rejected env cfg _ _ _ _ _ creq a). }
  intros Hyes ev d m. split.
  { intros e Hcd. by rewrite (handler_body_connect_fail env cfg _ _ _ _ _ creq a ev e d m). }
  intros c Hcd Hex.
  rewrite (handler_body_relay env cfg _ _ _ _ _ creq a ev c m) by done.
  pose proof (relay_loop_terminates (hasDeadline env c) c stream m obs Hex) as Hfin.
  destruct (relay_loop_finished _ _ _ _ _ Hfin) as [pre Hpre].
  rewrite Hfin, Hpre. split.
  - destruct closeSig; simpl; set_solver.
  - by intros ->.
Qed.

End HandlerClaims.

Lemma handleProxyStream_always_closes_stream_witness :
  (handleProxyStream env_ex cfg_ex 7 0 [obs_silent_dest; obs_eof] true world_alice).2
    = Returned /\
  EvStreamClose 7 ∈
    (handleProxyStream env_ex cfg_ex 7 0 [obs_silent_dest; obs_eof] true world_alice).1.2.
Proof.
  destruct (handleProxyStream_always_closes_stream env_ex cfg_ex 7 0
              [obs_silent_dest; obs_eof] true world_alice auth_alice)
    as (_ & Hclose & _ & Hrun); [reflexivity |].
  destruct (Hrun creq_direct) as [_ Hok]; [reflexivity |].
  destruct (Hok eq_refl [EvDial "tcp" "example.org:80" (10000 * Millisecond)]
                None (5000 * Millisecond)) as [_ Hrelay].
  destruct (Hrelay (DConn 100)) as [Hin Hret]; [reflexivity | |].
  - apply Exists_cons_tl, Exists_cons_hd. reflexivity.
  - split; [by apply Hret | exact Hin].
Defined.

(** ** Hop chaining *)

(** C2, counterexample: on one server (own identity "relay-server"), a
    stream of the session authenticated as "alice" and a stream of the
    session authenticated as "bob" ask for the same two hops; the outbound
    stream to the first hop is acquired as "alice" for the one and as "bob"
    for the other. *)
Lemma hop_uses_server_identity_fails : ~ hop_uses_server_identity.
Proof.
  intros [ident H].
  pose proof (H env_ex cfg_ex auth_alice creq_hops "tcp://hopA:48100"%string
                ["tcp://hopB:48100"%string] "tcp://hopA:48100"%string
                eq_refl eq_refl) as Ha.
  pose proof (H env_ex cfg_ex auth_bob creq_hops "tcp://hopA:48100"%string
                ["tcp://hopB:48100"%string] "tcp://hopA:48100"%string
                eq_refl eq_refl) as Hm.
  assert (Ea : (connect_dest env_ex cfg_ex auth_alice creq_hops
                  (default_maxIdleTime cfg_ex)).1.1.1 =
               [EvGetMuxStream "tcp://hopA:48100" "alice" (DefaultServerCipher cfg_ex);
                EvConnect 200 "tcp" "example.org:80"
                  {| so_DialTimeout := 3000; so_ReadTimeout := 5000;
                     so_Hops := ["tcp://hopB:48100"%string] |}])
    by (vm_compute; reflexivity).
  assert (Em : (connect_dest env_ex cfg_ex auth_bob creq_hops
                  (default_maxIdleTime cfg_ex)).1.1.1 =
               [EvGetMuxStream "tcp://hopA:48100" "bob" (DefaultServerCipher cfg_ex);
                EvConnect 200 "tcp" "example.org:80"
                  {| so_DialTimeout := 3000; so_ReadTimeout := 5000;
                     so_Hops := ["tcp://hopB:48100"%string] |}])
    by (vm_compute; reflexivity).
  rewrite Ea in Ha. rewrite Em in Hm.
  apply elem_of_cons in Ha as [Ha|Ha].
  - apply elem_of_cons in Hm as [Hm|Hm].
    + injection Ha as Ha. injection Hm as Hm. rewrite Ha in Hm. discriminate.
    + apply elem_of_cons in Hm as [Hm|Hm]; [discriminate | by apply elem_of_nil in Hm].
  - apply elem_of_cons in Ha as [Ha|Ha]; [discriminate | by apply elem_of_nil in Ha].
Qed.

(** C2, amended: for a connect request with hops [next :: nextHops] that
    was read and passed the policy, [handleProxyStream] parses [next] as a
    URL, acquires an outbound stream to it with the user of the inbound
    session's auth record and this server's cipher, and issues [Connect] on
    it for the requested network and address with options carrying exactly
    [nextHops] and the request's own dial and read timeouts.  On success the
    outbound stream is the destination and the copy task is started on it;
    a failure of the parse, of the acquisition or of the chained [Connect]
    closes the stream and returns. *)
Theorem hop_chain_connect
        (env : Env) (cfg : Config) (stream p : nat) (obs : list CopyObs)
        (closeSig : bool) (w : World) (a : AuthRequest) (creq : ConnectRequest)
        (next : string) (nextHops : list string) :
  ReadConnectRequest env stream = inr creq ->
  auth <$> heap w !! p = Some (Some a) ->
  Allowed env (Addr creq) = true ->
  Hops creq = next :: nextHops ->
  let opt := {| so_DialTimeout := DialTimeout creq;
                so_ReadTimeout := ReadTimeout creq;
                so_Hops := nextHops |} in
  let body := handler_body env cfg stream p obs closeSig w in
  match url_Parse env next with
  | inl _ => body = (w, [EvStreamClose stream], Returned)
  | inr url =>
      let get := EvGetMuxStream url (User a) (DefaultServerCipher cfg) in
      match GetMuxStreamByURL env url (User a) (DefaultServerCipher cfg) with
      | inl _ => body = (w, [get; EvStreamClose stream], Returned)
      | inr nextStream =>
          let con := EvConnect nextStream (Network creq) (Addr creq) opt in
          match stream_Connect env nextStream (Network creq) (Addr creq) opt with
          | Some _ => body = (w, [get; con; EvStreamClose stream], Returned)
          | None =>
              connect_dest env cfg a creq (default_maxIdleTime cfg) =
                ([get; con], None, Some (DStream nextStream), default_maxIdleTime cfg) /\
              exists tail,
                body.1.2 = [get; con; EvGo (TaskCopyUp (DStream nextStream) stream)] ++ tail
          end
      end
  end.
Proof.
  intros Hr Ha Hal Hh opt body.
  assert (Hcd : connect_dest env cfg a creq (default_maxIdleTime cfg) =
          match url_Parse env next with
          | inl e => ([], Some e, None, default_maxIdleTime cfg)
          | inr url =>
              let get := EvGetMuxStream url (User a) (DefaultServerCipher cfg) in
              match GetMuxStreamByURL env url (User a) (DefaultServerCipher cfg) with
              | inl e => ([get], Some e, None, default_maxIdleTime cfg)
              | inr nextStream =>
                  let con := EvConnect nextStream (Network creq) (Addr creq) opt in
                  match stream_Connect env nextStream (Network creq) (Addr creq) opt with
                  | Some e => ([get; con], Some e, None, default_maxIdleTime cfg)
                  | None => ([get; con], None, Some (DStream nextStream),
                             default_maxIdleTime cfg)
                  end
              end
          end).
  { unfold connect_dest. rewrite Hh. reflexivity. }
  subst body.
  destruct (url_Parse env next) as [e|url].
  { by rewrite (handler_body_connect_fail env cfg _ _ _ _ _ creq a _ _ _ _ Hr Ha Hal Hcd). }
  cbv zeta in Hcd |- *.
  destruct (GetMuxStreamByURL env url (User a) (DefaultServerCipher cfg)) as [e|ns].
  { by rewrite (handler_body_connect_fail env cfg _ _ _ _ _ creq a _ _ _ _ Hr Ha Hal Hcd). }
  destruct (stream_Connect env ns (Network creq) (Addr creq) opt) as [e|].
  { by rewrite (handler_body_connect_fail env cfg _ _ _ _ _ creq a _ _ _ _ Hr Ha Hal Hcd). }
  split; [exact Hcd |].
  rewrite (handler_body_relay env cfg _ _ _ _ _ creq a _ _ _ Hr Ha Hal Hcd).
  destruct (_ && _); simpl; eexists; reflexivity.
Qed.

Lemma hop_chain_connect_witness :
  connect_dest env_ex cfg_ex auth_alice creq_hops (default_maxIdleTime cfg_ex) =
    ([EvGetMuxStream "tcp://hopA:48100" "alice" (DefaultServerCipher cfg_ex);
      EvConnect 200 "tcp" "example.org:80"
        {| so_DialTimeout := 3000; so_ReadTimeout := 5000;
           so_Hops := ["tcp://hopB:48100"%string] |}],
     None, Some (DStream 200), 10 * Second).
Proof.
  pose proof (hop_chain_connect env_ex cfg_ex 8 0 [] true world_alice auth_alice
                creq_hops "tcp://hopA:48100" ["tcp://hopB:48100"%string]
                eq_refl eq_refl eq_refl eq_refl) as H.
  exact (proj1 H).
Defined.

(** ** Read timeout *)

(** C6, counterexample: a request with a read timeout of 5000 ms and two
    hops, under the default idle timeout; the chain is established and the
    loop's idle timeout is the default 10 s. *)
Lemma read_timeout_always_overrides_fails : ~ read_timeout_always_overrides.
Proof.
  intros H.
  assert (E : connect_dest env_ex cfg_ex auth_alice creq_hops (default_maxIdleTime cfg_ex) =
              ([EvGetMuxStream "tcp://hopA:48100" "alice" (DefaultServerCipher cfg_ex);
                EvConnect 200 "tcp" "example.org:80"
                  {| so_DialTimeout := 3000; so_ReadTimeout := 5000;
                     so_Hops := ["tcp://hopB:48100"%string] |}],
               None, Some (DStream 200), 10 * Second)) by (vm_compute; reflexivity).
  specialize (H env_ex cfg_ex auth_alice creq_hops _ _ _ ltac:(discriminate) E).
  vm_compute in H. discriminate.
Qed.

(** C6, amended: when the destination is dialled directly (no hops), the
    dial succeeds and the request's read timeout is positive,
    [handleProxyStream] runs the relay loop with that read timeout, taken in
    milliseconds as an int64 [Duration], in place of the default idle
    timeout.  When the destination is reached through hops, or the read
    timeout is not positive, the loop keeps the default idle timeout; with
    hops the read timeout is only passed on in the options of the chained
    [Connect]. *)
Theorem read_timeout_overrides_on_direct_dial
        (env : Env) (cfg : Config) (stream p : nat) (obs : list CopyObs)
        (closeSig : bool) (w : World) (a : AuthRequest) (creq : ConnectRequest)
        (ev : list Event) (c : Dest) (m : Z) :
  ReadConnectRequest env stream = inr creq ->
  auth <$> heap w !! p = Some (Some a) ->
  Allowed env (Addr creq) = true ->
  connect_dest env cfg a creq (default_maxIdleTime cfg) = (ev, None, Some c, m) ->
  (exists pre post,
     (handler_body env cfg stream p obs closeSig w).1.2 =
       pre ++ (relay_loop (hasDeadline env c) c stream m obs).1 ++ post) /\
  (Hops creq = [] -> 0 < ReadTimeout creq ->
     m = wrap64 (ReadTimeout creq * Millisecond) /\
     (ReadTimeout creq * Millisecond <= maxInt64 -> m = ReadTimeout creq * Millisecond)) /\
  (Hops creq = [] -> ReadTimeout creq <= 0 -> m = default_maxIdleTime cfg) /\
  (Hops creq ≠ [] ->
     m = default_maxIdleTime cfg /\
     exists url nextStream opt,
       ev = [EvGetMuxStream url (User a) (DefaultServerCipher cfg);
             EvConnect nextStream (Network creq) (Addr creq) opt] /\
       so_ReadTimeout opt = ReadTimeout creq).
Proof.
  intros Hr Ha Hal Hcd. split; [| split; [| split]].
  - rewrite (handler_body_relay env cfg _ _ _ _ _ creq a _ _ _ Hr Ha Hal Hcd).
    set (wrap := match rl_result _ with Some r => [EvRateLimitReader c r] | None => [] end).
    exists (ev ++ [EvGo (TaskCopyUp c stream)] ++ wrap).
    destruct (_ && _); simpl.
    + eexists. rewrite <- !app_assoc. f_equal. simpl. f_equal.
      rewrite <- app_assoc. reflexivity.
    + exists []. rewrite app_nil_r, <- !app_assoc. f_equal.
  - intros Hh Hpos. unfold connect_dest in Hcd. rewrite Hh in Hcd.
    destruct (net_DialTimeout env _ _ _); [discriminate |].
    destruct (Z.gtb_spec (ReadTimeout creq) 0); [| lia].
    injection Hcd as _ _ <-. split; [reflexivity |].
    intros Hle. apply wrap64_small. unfold minInt64, Millisecond in *. lia.
  - intros Hh Hnp. unfold connect_dest in Hcd. rewrite Hh in Hcd.
    destruct (net_DialTimeout env _ _ _); [discriminate |].
    destruct (Z.gtb_spec (ReadTimeout creq) 0); [lia |].
    by injection Hcd as _ _ <-.
  - intros Hh. unfold connect_dest in Hcd.
    destruct (Hops creq) as [|next nextHops]; [done |].
    destruct (url_Parse env next) as [|url]; [discriminate |].
    destruct (GetMuxStreamByURL env _ _ _) as [|ns]; [discriminate |].
    destruct (stream_Connect env _ _ _ _); [discriminate |].
    injection Hcd as <- _ <-. split; [reflexivity |].
    eexists _, _, _. split; reflexivity.
Qed.

Lemma read_timeout_overrides_on_direct_dial_witness :
  wrap64 (ReadTimeout creq_direct * Millisecond) = 5 * Second /\
  exists pre post,
    (handler_body env_ex cfg_ex 7 0 [obs_eof] true world_alice).1.2 =
      pre ++ (relay_loop true (DConn 100) 7 (5000 * Millisecond) [obs_eof]).1 ++ post.
Proof.
  destruct (read_timeout_overrides_on_direct_dial env_ex cfg_ex 7 0 [obs_eof] true
              world_alice auth_alice creq_direct
              [EvDial "tcp" "example.org:80" (10000 * Millisecond)]
              (DConn 100) (5000 * Millisecond)
              eq_refl eq_refl eq_refl eq_refl) as (Hloop & Hdirect & _ & _).
  destruct (Hdirect eq_refl ltac:(reflexivity)) as [Hm _].
  split; [symmetry; exact Hm | exact Hloop].
Defined.

(** ** Auth handshake *)

Section Handshake.

Variables (env : Env) (cfg : Config).

Lemma close_spec p w ctx :
  heap w !! p = Some ctx ->
  close p w =
    (es_delete p (ctx_update p (set_closed true) w),
     [EvMarkClosed p]
       ++ match isP2SP ctx, auth ctx with
          | true, Some a => [EvRemoveP2sp (P2SPRoomId a) (P2SPConnId a) (session ctx)]
          | _, _ => []
          end
       ++ [EvSessionClose (session ctx); EvEmptyDelete p]).
Proof. intros H. unfold close. by rewrite H. Qed.

Lemma serve_loop_continue s p stream rest w w1 ev :
  serve_iter env cfg s p (inr stream) w = (w1, ev, Continue) ->
  serve_loop env cfg s p (inr stream :: rest) w =
    ((serve_loop env cfg s p rest w1).1.1,
     ev ++ (serve_loop env cfg s p rest w1).1.2,
     (serve_loop env cfg s p rest w1).2).
Proof.
  intros H. cbn [serve_loop]. rewrite H.
  by destruct (serve_loop env cfg s p rest w1) as [[? ?] ?].
Qed.

Lemma serve_loop_return s p acc rest w w1 ev err :
  serve_iter env cfg s p acc w = (w1, ev, Return err) ->
  serve_loop env cfg s p (acc :: rest) w =
    ((close p w1).1, ev ++ (close p w1).2, Some err).
Proof.
  intros H. cbn [serve_loop]. rewrite H. by destruct (close p w1).
Qed.

(** An accept failure of any kind ends the loop with that error. *)
Lemma serve_loop_accept_error s p e rest w :
  serve_loop env cfg s p (inl e :: rest) w = ((close p w).1, (close p w).2, Some (Some e)).
Proof. by rewrite (serve_loop_return s p (inl e) rest w w [] (Some e)). Qed.

(** Once authenticated, every accepted stream is handed to a handler task. *)
Lemma serve_iter_dispatch s p stream w ctx a :
  heap w !! p = Some ctx -> auth ctx = Some a ->
  serve_iter env cfg s p (inr stream) w =
    (w, [EvGo (if isP2SP ctx then TaskP2sp stream p else TaskProxy stream p)], Continue).
Proof. intros H1 H2. unfold serve_iter. by rewrite H1, H2. Qed.

End Handshake.

(** C1: on a context without auth, the stream just accepted is the
    handshake.  If reading the auth request fails, nothing is closed, the
    store is unchanged and the loop goes on with the next accept.  If the
    user is not verified or the compression method is not valid, the
    session is closed and the function returns [ErrAuthFailed], whatever
    streams would follow.  If the request names a peer-relay room and the
    registration fails, the auth record has been stored, the session is
    closed and the function returns [ErrAuthFailed].  Otherwise the auth
    record is stored in the context ([isP2SP] set when a room was joined),
    the auth-OK response is written to the handshake stream, that stream is
    closed, the session is not, and the loop goes on. *)
Theorem handshake_outcomes
        (env : Env) (cfg : Config) (s p stream : nat)
        (rest : list (error + nat)) (w : World) (ctx : sessionContext) :
  heap w !! p = Some ctx -> auth ctx = None ->
  (forall e, ReadAuthRequest env stream = inl e ->
     serve_iter env cfg s p (inr stream) w = (w, [], Continue) /\
     serve_loop env cfg s p (inr stream :: rest) w = serve_loop env cfg s p rest w) /\
  (forall r, ReadAuthRequest env stream = inr r ->
     (VerifyUser env (DefaultServerCipher cfg) (User r) = false \/
      IsValidCompressor env (CompressMethod r) = false ->
      serve_loop env cfg s p (inr stream :: rest) w =
        ((close p w).1, EvSessionClose s :: (close p w).2, Some (Some ErrAuthFailed))) /\
     (VerifyUser env (DefaultServerCipher cfg) (User r) = true ->
      IsValidCompressor env (CompressMethod r) = true ->
      let w1 := ctx_update p (set_auth (Some r)) w in
      let add := EvAddP2sp (P2SPRoomId r) (P2SPConnId r) s in
      (P2SPRoomId r ≠ ""%string ->
       addP2spSession env (P2SPRoomId r) (P2SPConnId r) s = false ->
       serve_loop env cfg s p (inr stream :: rest) w =
         ((close p w1).1, [add; EvSessionClose s] ++ (close p w1).2,
          Some (Some ErrAuthFailed))) /\
      (P2SPRoomId r ≠ ""%string ->
       addP2spSession env (P2SPRoomId r) (P2SPConnId r) s = true ->
       serve_iter env cfg s p (inr stream) w =
         (ctx_update p (set_isP2SP true) w1, add :: auth_ok env s stream r, Continue)) /\
      (P2SPRoomId r = ""%string ->
       serve_iter env cfg s p (inr stream) w = (w1, auth_ok env s stream r, Continue)) /\
      heap w1 !! p = Some (set_auth (Some r) ctx) /\
      heap (ctx_update p (set_isP2SP true) w1) !! p
        = Some (set_isP2SP true (set_auth (Some r) ctx)) /\
      (exists tail, auth_ok env s stream r
                    = [EvWriteAuthOK stream; EvStreamClose stream] ++ tail /\
                    forall e, e ∈ tail ->
                      e = EvResetCrypto s (CipherMethod r) (CipherCounter r)))).
Proof.
  intros Hp Hnone. split.
  - intros e He.
    assert (Hit : serve_iter env cfg s p (inr stream) w = (w, [], Continue)).
    { unfold serve_iter. by rewrite Hp, Hnone, He. }
    split; [exact Hit |].
    rewrite (serve_loop_continue env cfg s p stream rest w w [] Hit).
    by destruct (serve_loop env cfg s p rest w) as [[? ?] ?].
  - intros r Hr. split.
    + intros Hbad.
      rewrite (serve_loop_return env cfg s p (inr stream) rest w w [EvSessionClose s]
                 (Some ErrAuthFailed)); [done |].
      unfold serve_iter. rewrite Hp, Hnone, Hr.
      destruct (VerifyUser env _ _); simpl; [| done].
      destruct Hbad as [Hbad|Hbad]; [done |]. by rewrite Hbad.
    + intros Hv Hc w1 add.
      assert (Hlen : forall x : string,
                 x ≠ ""%string -> (0 <? Z.of_nat (String.length x)) = true).
      { intros [|ch x] Hx; [done |]. simpl String.length. apply Z.ltb_lt. lia. }
      split; [| split; [| split; [| split; [| split]]]].
      * intros Hroom Hadd.
        rewrite (serve_loop_return env cfg s p (inr stream) rest w w1
                   [add; EvSessionClose s] (Some ErrAuthFailed)); [done |].
        unfold serve_iter. rewrite Hp, Hnone, Hr, Hv, Hc. simpl.
        by rewrite (Hlen _ Hroom), Hadd.
      * intros Hroom Hadd.
        unfold serve_iter. rewrite Hp, Hnone, Hr, Hv, Hc. simpl.
        by rewrite (Hlen _ Hroom), Hadd.
      * intros Hroom.
        unfold serve_iter. rewrite Hp, Hnone, Hr, Hv, Hc. simpl.
        by rewrite Hroom.
      * subst w1. by rewrite ctx_update_lookup, Hp.
      * subst w1. by rewrite !ctx_update_lookup, Hp.
      * unfold auth_ok. eexists. split; [reflexivity |].
        intros e He. destruct (isProxyMuxSession env s).
        -- by apply list_elem_of_singleton in He.
        -- by apply elem_of_nil in He.
Qed.

Lemma handshake_outcomes_witness :
  serve_iter env_ex cfg_ex 50 0 (inr 6%nat) world_fresh = (world_fresh, [], Continue) /\
  serve_loop env_ex cfg_ex 50 0 [inr 2%nat; inr 7%nat] world_fresh =
    ((close 0 world_fresh).1, EvSessionClose 50 :: (close 0 world_fresh).2,
     Some (Some ErrAuthFailed)) /\
  serve_loop env_ex cfg_ex 50 0 [inr 3%nat; inr 7%nat] world_fresh =
    ((close 0 world_fresh).1, EvSessionClose 50 :: (close 0 world_fresh).2,
     Some (Some ErrAuthFailed)) /\
  serve_iter env_ex cfg_ex 50 0 (inr 1%nat) world_fresh =
    (ctx_update 0 (set_auth (Some auth_alice)) world_fresh,
     auth_ok env_ex 50 1 auth_alice, Continue).
Proof.
  pose proof (fun stream rest =>
                handshake_outcomes env_ex cfg_ex 50 0 stream rest world_fresh
                  _ eq_refl eq_refl) as H.
  split; [| split; [| split]].
  - exact (proj1 (proj1 (H 6%nat []) (OtherError "unexpected EOF") eq_refl)).
  - exact (proj1 (proj2 (H 2%nat [inr 7%nat]) auth_mallory eq_refl)
             (or_introl eq_refl)).
  - exact (proj1 (proj2 (H 3%nat [inr 7%nat]) auth_badcomp eq_refl)
             (or_intror eq_refl)).
  - destruct (proj2 (proj2 (H 1%nat []) auth_alice eq_refl) eq_refl eq_refl)
      as (_ & _ & Hok & _).
    exact (Hok eq_refl).
Defined.

(** ** Bookkeeping of contexts *)

Section Bookkeeping.

Lemma same_book_refl w : same_book w w.
Proof. split; [done |]. split; [done |]. intros q c H. by exists c. Qed.

Lemma same_book_trans w1 w2 w3 :
  same_book w1 w2 -> same_book w2 w3 -> same_book w1 w3.
Proof.
  intros (E1 & L1 & H1) (E2 & L2 & H2). split; [congruence |]. split; [congruence |].
  intros q c Hq. destruct (H1 q c Hq) as (c' & Hq' & ? & ? & ? & ?).
  destruct (H2 q c' Hq') as (c'' & Hq'' & ? & ? & ? & ?).
  exists c''. repeat split; congruence.
Qed.

Lemma same_book_update p f w :
  (forall c, streamCouter (f c) = streamCouter c /\ closed (f c) = closed c /\
             activeIOTime (f c) = activeIOTime c /\ session (f c) = session c) ->
  same_book w (ctx_update p f w).
Proof.
  intros Hf. split; [done |]. split; [apply length_alter |].
  intros q c Hq. destruct (decide (p = q)) as [->|Hne].
  - exists (f c). rewrite ctx_update_lookup, Hq. split; [done |]. apply Hf.
  - exists c. by rewrite ctx_update_lookup_ne.
Qed.

Lemma serve_iter_same_book env cfg s p acc w :
  same_book w (serve_iter env cfg s p acc w).1.1.
Proof.
  unfold serve_iter. destruct acc as [e|stream]; [apply same_book_refl |].
  destruct (heap w !! p) as [ctx|]; [| apply same_book_refl].
  destruct (auth ctx); [apply same_book_refl |].
  destruct (ReadAuthRequest env stream) as [|r]; [apply same_book_refl |].
  destruct (negb (VerifyUser env _ _)); [apply same_book_refl |].
  destruct (negb (IsValidCompressor env _)); [apply same_book_refl |].
  assert (H1 : same_book w (ctx_update p (set_auth (Some r)) w))
    by (by apply same_book_update).
  destruct (0 <? _); [| exact H1].
  destruct (negb (addP2spSession env _ _ _)); [exact H1 |]. simpl.
  eapply same_book_trans; [exact H1 |]. by apply same_book_update.
Qed.

Lemma close_lookup p q w :
  heap (close p w).1 !! q =
    (if decide (p = q) then set_closed true else id) <$> heap w !! q.
Proof.
  unfold close. destruct (heap w !! p) as [ctx|] eqn:E; simpl.
  - destruct (decide (p = q)) as [->|Hne].
    + apply list_lookup_alter_eq.
    + rewrite list_lookup_alter_ne by done. by destruct (heap w !! q).
  - destruct (decide (p = q)) as [->|Hne].
    + by rewrite E.
    + by destruct (heap w !! q).
Qed.

Lemma close_length p w : length (heap (close p w).1) = length (heap w).
Proof.
  unfold close. destruct (heap w !! p); simpl; [apply length_alter | done].
Qed.

Lemma close_members p q w :
  q ∈ emptySessions (close p w).1 ->
  q ∈ emptySessions w /\ (is_Some (heap w !! p) -> q ≠ p).
Proof.
  unfold close. destruct (heap w !! p) as [ctx|] eqn:E; simpl.
  - intros H. apply elem_of_difference in H as [H1 H2].
    split; [done |]. intros _. set_solver.
  - intros H. split; [done |]. by intros [? ?].
Qed.

Lemma reaper_visit_is_close cfg now p w :
  (reaper_visit cfg now p w).1 = w \/ (reaper_visit cfg now p w).1 = (close p w).1.
Proof.
  unfold reaper_visit. destruct (heap w !! p); [| by left].
  destruct (_ >? _); [by right | by left].
Qed.

End Bookkeeping.

Section SysInvariant.

Lemma sys_inv_init : sys_inv sys_init.
Proof. split; [done |]. intros p ctx n H. simpl in H. by rewrite lookup_nil in H. Qed.

Lemma max_handlers_val : max_handlers = 2^31 - 1.
Proof. reflexivity. Qed.

Lemma sys_inv_same_book st w' :
  sys_inv st -> same_book (world st) w' ->
  sys_inv {| world := w'; active := active st |}.
Proof.
  intros [Hlen Hinv] (Hes & Hl & Hb). split; [simpl; congruence |].
  simpl. intros p ctx' n Hp Hn.
  destruct (heap (world st) !! p) as [ctx|] eqn:E.
  - destruct (Hb p ctx E) as (c' & Hc' & Hcnt & Hcl & _).
    assert (c' = ctx') as -> by congruence.
    destruct (Hinv p ctx n E Hn) as (H1 & H2 & H3).
    rewrite Hcnt, Hcl, Hes. done.
  - apply lookup_ge_None in E. apply lookup_lt_Some in Hp. lia.
Qed.

Lemma sys_inv_close st p :
  sys_inv st -> sys_inv {| world := (close p (world st)).1; active := active st |}.
Proof.
  intros [Hlen Hinv]. split; [simpl; by rewrite close_length |].
  simpl. intros q ctx' n Hq Hn. rewrite close_lookup in Hq.
  destruct (heap (world st) !! q) as [ctx|] eqn:E; [| done].
  destruct (Hinv q ctx n E Hn) as (H1 & H2 & H3).
  simpl in Hq. injection Hq as <-.
  destruct (decide (p = q)) as [->|Hne].
  - split; [done |]. split; [done |]. intros Hin.
    apply close_members in Hin as [_ Hin]. exfalso. by apply Hin.
  - split; [done |]. split; [done |]. intros Hin.
    apply close_members in Hin as [Hin _]. by apply H3.
Qed.

Lemma sys_step_inv a st st' :
  sys_inv st -> sys_step a st = Some st' -> sys_inv st'.
Proof.
  intros Hinv Hstep. pose proof Hinv as [Hlen Hall].
  destruct a as [s au now | env cfg s p acc | p | p | cfg now p]; simpl in Hstep.
  - (* a new context: counter 0, not closed, no handler *)
    injection Hstep as <-. split; [simpl; rewrite !length_app; simpl; lia |].
    simpl. intros q ctx n Hq Hn.
    destruct (decide (q < length (heap (world st)))%nat) as [Hlt|Hge].
    + rewrite lookup_app_l in Hq by done.
      rewrite lookup_app_l in Hn by lia. by apply Hall.
    + rewrite lookup_app_r in Hq by lia. rewrite lookup_app_r in Hn by lia.
      rewrite Hlen in Hn.
      destruct (q - length (heap (world st)))%nat as [|k]; [| done].
      simpl in Hq, Hn. injection Hq as <-. injection Hn as <-.
      simpl. split; [done |]. split; [by rewrite max_handlers_val | done].
  - (* a turn of the accept loop *)
    destruct (heap (world st) !! p) as [ctx|] eqn:Ep; [| done].
    pose proof (serve_iter_same_book env cfg s p acc (world st)) as Hb.
    destruct (serve_iter env cfg s p acc (world st)) as [[w1 ev] r]. simpl in Hb.
    pose proof (sys_inv_same_book st w1 Hinv Hb) as Hinv1.
    destruct r; injection Hstep as <-; [done |].
    exact (sys_inv_close {| world := w1; active := active st |} p Hinv1).
  - (* handler entry *)
    destruct (active st !! p) as [n|] eqn:En; [| done].
    destruct (Z.ltb_spec (Z.of_nat n) max_handlers) as [Hlt|]; [| done].
    injection Hstep as <-. split.
    { simpl. rewrite length_insert, length_alter. done. }
    simpl. intros q ctx' m Hq Hm.
    destruct (decide (p = q)) as [->|Hne].
    + rewrite list_lookup_alter_eq in Hq.
      destruct (heap (world st) !! q) as [ctx|] eqn:E; [| done].
      simpl in Hq. injection Hq as <-.
      rewrite list_lookup_insert_eq in Hm by (by eapply lookup_lt_Some).
      injection Hm as <-.
      destruct (Hall q ctx n E En) as (H1 & H2 & H3). simpl.
      pose proof max_handlers_val as Hmax.
      split; [| split; [lia |]].
      * rewrite H1, wrap32_small by lia. lia.
      * intros Hin. apply elem_of_difference in Hin as [_ Hin].
        exfalso. apply Hin. by apply elem_of_singleton.
    + rewrite list_lookup_alter_ne in Hq by done.
      rewrite list_lookup_insert_ne in Hm by done.
      destruct (Hall q ctx' m Hq Hm) as (H1 & H2 & H3).
      split; [done |]. split; [done |]. intros Hin. apply H3.
      by apply elem_of_difference in Hin as [Hin _].
  - (* handler exit *)
    destruct (active st !! p) as [[|n]|] eqn:En; [done | | done].
    injection Hstep as <-.
    assert (is_Some (heap (world st) !! p)) as [ctx E].
    { apply lookup_lt_is_Some. rewrite <- Hlen. by eapply lookup_lt_Some. }
    destruct (Hall p ctx (S n) E En) as (H1 & H2 & H3).
    assert (Hcnt : wrap32 (streamCouter ctx + -1) = Z.of_nat n).
    { pose proof max_handlers_val as Hmax. rewrite H1, wrap32_small by lia. lia. }
    assert (Hnot : p ∉ emptySessions (world st)).
    { intros Hin. by destruct (H3 Hin). }
    unfold handler_exit.
    assert (Hlk : heap (counter_add p (-1) (world st)) !! p =
                  Some (set_streamCouter (Z.of_nat n) ctx)).
    { unfold counter_add. rewrite ctx_update_lookup, E. simpl. by rewrite Hcnt. }
    rewrite Hlk. simpl streamCouter. simpl closed.
    assert (Hbase : forall es',
              (forall q, q ∈ es' -> q ≠ p -> q ∈ emptySessions (world st)) ->
              (p ∈ es' -> n = 0%nat /\ closed ctx = false) ->
              sys_inv {| world := {| heap := heap (counter_add p (-1) (world st));
                                     emptySessions := es';
                                     rl := rl (world st) |};
                         active := <[p := n]> (active st) |}).
    { intros es' Hes Hp. split.
      { simpl. by rewrite length_insert, length_alter. }
      simpl. intros q ctx' m Hq Hm.
      destruct (decide (p = q)) as [->|Hne].
      - rewrite list_lookup_alter_eq, E in Hq. simpl in Hq. injection Hq as <-.
        rewrite list_lookup_insert_eq in Hm by (by eapply lookup_lt_Some).
        injection Hm as <-. simpl. split; [done |]. split; [lia | done].
      - rewrite list_lookup_alter_ne in Hq by done.
        rewrite list_lookup_insert_ne in Hm by done.
        destruct (Hall q ctx' m Hq Hm) as (G1 & G2 & G3).
        split; [done |]. split; [done |]. intros Hin. apply G3. by apply Hes. }
    destruct ((Z.of_nat n =? 0) && negb (closed ctx)) eqn:Econd.
    + apply andb_true_iff in Econd as [Hz Hc]. apply Z.eqb_eq in Hz.
      apply negb_true_iff in Hc.
      apply (Hbase ({[p]} ∪ emptySessions (world st))).
      * intros q Hq Hne. apply elem_of_union in Hq as [Hq|Hq]; [| done].
        by apply elem_of_singleton in Hq.
      * intros _. split; [lia | done].
    + apply (Hbase (emptySessions (world st))).
      * done.
      * intros Hin. done.
  - (* the reaper *)
    injection Hstep as <-.
    destruct (reaper_visit_is_close cfg now p (world st)) as [-> | ->].
    + by destruct st.
    + by apply sys_inv_close.
Qed.

Lemma sys_run_inv acts st st' :
  sys_inv st -> sys_run acts st = Some st' -> sys_inv st'.
Proof.
  revert st. induction acts as [|a acts IH]; intros st Hinv Hrun; simpl in Hrun.
  - by injection Hrun as <-.
  - destruct (sys_step a st) as [st1|] eqn:E; [| done].
    eapply IH; [| exact Hrun]. by eapply sys_step_inv.
Qed.

End SysInvariant.

Section Evolution.

Lemma evolves_refl w : evolves w w.
Proof. intros q c H. by exists c. Qed.

Lemma evolves_trans w1 w2 w3 : evolves w1 w2 -> evolves w2 w3 -> evolves w1 w3.
Proof.
  intros H1 H2 q c Hq. destruct (H1 q c Hq) as (c' & Hq' & ? & ? & ?).
  destruct (H2 q c' Hq') as (c'' & Hq'' & ? & ? & ?).
  exists c''. repeat split; try congruence. auto.
Qed.

Lemma evolves_same_book w w' : same_book w w' -> evolves w w'.
Proof.
  intros (_ & _ & H) q c Hq. destruct (H q c Hq) as (c' & ? & ? & ? & ? & ?).
  exists c'. repeat split; congruence.
Qed.

Lemma evolves_close p w : evolves w (close p w).1.
Proof.
  intros q c Hq. rewrite close_lookup, Hq. simpl.
  destruct (decide (p = q)); eexists; (split; [reflexivity |]); done.
Qed.

Lemma evolves_heap w w' :
  (forall q c, heap w !! q = Some c ->
     exists c', heap w' !! q = Some c' /\ activeIOTime c' = activeIOTime c /\
                session c' = session c /\ closed c' = closed c) ->
  evolves w w'.
Proof.
  intros H q c Hq. destruct (H q c Hq) as (c' & ? & ? & ? & Hc).
  exists c'. repeat split; try done. by rewrite Hc.
Qed.

Lemma counter_add_lookup p d q w c :
  heap w !! q = Some c ->
  exists c', heap (counter_add p d w) !! q = Some c' /\
             activeIOTime c' = activeIOTime c /\ session c' = session c /\
             closed c' = closed c /\ auth c' = auth c /\ isP2SP c' = isP2SP c.
Proof.
  intros Hq. unfold counter_add. destruct (decide (p = q)) as [->|Hne].
  - rewrite ctx_update_lookup, Hq. simpl. by eexists.
  - rewrite ctx_update_lookup_ne by done. by exists c.
Qed.

Lemma evolves_enter p w : evolves w (handler_enter p w).
Proof.
  apply evolves_heap. intros q c Hq.
  destruct (counter_add_lookup p 1 q w c Hq) as (c' & ? & ? & ? & ? & _).
  by exists c'.
Qed.

Lemma handler_exit_heap p w : heap (handler_exit p w) = heap (counter_add p (-1) w).
Proof.
  unfold handler_exit. destruct (heap (counter_add p (-1) w) !! p) as [c|]; [| done].
  by destruct (_ && _).
Qed.

Lemma evolves_exit p w : evolves w (handler_exit p w).
Proof.
  apply evolves_heap. intros q c Hq. rewrite handler_exit_heap.
  destruct (counter_add_lookup p (-1) q w c Hq) as (c' & ? & ? & ? & ? & _).
  by exists c'.
Qed.

Lemma evolves_new s a now w : evolves w (sess_new s a now w).2.
Proof.
  intros q c Hq. exists c. simpl. split; [by apply lookup_app_l_Some | done].
Qed.

Lemma evolves_reaper_visit cfg now p w : evolves w (reaper_visit cfg now p w).1.
Proof.
  destruct (reaper_visit_is_close cfg now p w) as [-> | ->];
    [apply evolves_refl | apply evolves_close].
Qed.

Lemma sys_step_evolves a st st' :
  sys_step a st = Some st' -> evolves (world st) (world st').
Proof.
  destruct a as [s au now | env cfg s p acc | p | p | cfg now p]; simpl; intros H.
  - injection H as <-. apply evolves_new.
  - destruct (heap (world st) !! p); [| done].
    pose proof (serve_iter_same_book env cfg s p acc (world st)) as Hb.
    destruct (serve_iter env cfg s p acc (world st)) as [[w1 ev] r]. simpl in Hb.
    apply evolves_same_book in Hb.
    destruct r; injection H as <-; simpl; [done |].
    eapply evolves_trans; [exact Hb | apply evolves_close].
  - destruct (active st !! p); [| done]. destruct (_ <? _); [| done].
    injection H as <-. apply evolves_enter.
  - destruct (active st !! p) as [[|n]|]; [done | | done].
    injection H as <-. apply evolves_exit.
  - injection H as <-. apply evolves_reaper_visit.
Qed.

Lemma sys_run_evolves acts st st' :
  sys_run acts st = Some st' -> evolves (world st) (world st').
Proof.
  revert st. induction acts as [|a acts IH]; intros st H; simpl in H.
  - injection H as <-. apply evolves_refl.
  - destruct (sys_step a st) as [st1|] eqn:E; [| done].
    eapply evolves_trans; [by eapply sys_step_evolves | by apply IH].
Qed.

(** The handler writes nothing but [streamCouter] into a context. *)
Lemma handleProxyStream_heap env cfg stream p obs closeSig w q c :
  heap w !! q = Some c ->
  exists c', heap (handleProxyStream env cfg stream p obs closeSig w).1.1 !! q = Some c' /\
             activeIOTime c' = activeIOTime c /\ session c' = session c /\
             closed c' = closed c /\ auth c' = auth c /\ isP2SP c' = isP2SP c.
Proof.
  intros Hq.
  destruct (counter_add_lookup p 1 q w c Hq) as (c1 & H1 & A1 & A2 & A3 & A4 & A5).
  assert (Hbody : heap (handler_body env cfg stream p obs closeSig (handler_enter p w)).1.1
                  = heap (handler_enter p w)).
  { unfold handler_body. destruct (ReadConnectRequest env stream); [done |].
    destruct (auth <$> _) as [[a|]|]; try done.
    destruct (negb _); [done |].
    destruct (connect_dest _ _ _ _ _) as [[[ev [e|]] [d|]] m]; try done.
    destruct (getRateLimitBucket _ _ _ _) as [[b rl'] tr].
    destruct (relay_loop _ _ _ _ _) as [lev fin]. by destruct (_ && _). }
  unfold handleProxyStream.
  destruct (handler_body env cfg stream p obs closeSig (handler_enter p w))
    as [[w1 ev] st]. simpl in Hbody.
  assert (Hw1 : heap w1 !! q = Some c1) by (by rewrite Hbody).
  destruct st; simpl.
  - rewrite handler_exit_heap.
    destruct (counter_add_lookup p (-1) q w1 c1 Hw1) as (c2 & Hc2 & B1 & B2 & B3 & B4 & B5).
    exists c2. repeat split; congruence.
  - exists c1. repeat split; congruence.
  - rewrite handler_exit_heap.
    destruct (counter_add_lookup p (-1) q w1 c1 Hw1) as (c2 & Hc2 & B1 & B2 & B3 & B4 & B5).
    exists c2. repeat split; congruence.
Qed.

End Evolution.

(** ** Stream counter and idle-candidate set *)

(** C5, counterexample: the context that [ServProxyMuxSession] has just
    created has counter zero and is not closed, and is not in
    [emptySessions]: only the exit of a handler puts a context there. *)
Lemma idle_set_iff_zero_and_open_fails : ~ idle_set_iff_zero_and_open.
Proof.
  intros H.
  specialize (H [ANew 50 None 0] _ 0%nat _ eq_refl eq_refl).
  destruct H as [_ H]. specialize (H (conj eq_refl eq_refl)).
  vm_compute in H. discriminate.
Qed.

(** C5, amended: take the entry of a handler (increment and removal), its
    deferred exit (decrement and conditional re-insertion) and [close] as
    indivisible steps, and let fewer than 2^31 handlers run at once on a
    session.  Then in every reachable state [streamCouter] is not negative,
    and a context that is in [emptySessions] has counter zero and is not
    closed; the converse is left out.  A handler's entry adds one to the
    counter and removes the context from the set; its exit subtracts one and
    puts the context into the set exactly when the new counter is zero and
    the context is not closed, and otherwise leaves the set as it is. *)
Theorem stream_counter_and_idle_set
        (acts : list Act) (st : Sys) (p : nat) (ctx : sessionContext) :
  sys_run acts sys_init = Some st ->
  heap (world st) !! p = Some ctx ->
  0 <= streamCouter ctx /\
  (p ∈ emptySessions (world st) -> streamCouter ctx = 0 /\ closed ctx = false) /\
  (heap (handler_enter p (world st)) !! p
     = Some (set_streamCouter (wrap32 (streamCouter ctx + 1)) ctx) /\
   p ∉ emptySessions (handler_enter p (world st))) /\
  (heap (handler_exit p (world st)) !! p
     = Some (set_streamCouter (wrap32 (streamCouter ctx - 1)) ctx) /\
   emptySessions (handler_exit p (world st)) =
     if (wrap32 (streamCouter ctx - 1) =? 0) && negb (closed ctx)
     then {[p]} ∪ emptySessions (world st)
     else emptySessions (world st)).
Proof.
  intros Hrun Hp.
  pose proof (sys_run_inv acts sys_init st sys_inv_init Hrun) as [Hlen Hinv].
  assert (is_Some (active st !! p)) as [n Hn].
  { apply lookup_lt_is_Some. rewrite Hlen. by eapply lookup_lt_Some. }
  destruct (Hinv p ctx n Hp Hn) as (H1 & H2 & H3).
  split; [lia |]. split.
  { intros Hin. destruct (H3 Hin) as [-> ?]. by rewrite H1. }
  split.
  - split.
    + by rewrite handler_enter_lookup, Hp.
    + unfold handler_enter, es_delete. simpl. intros Hin.
      apply elem_of_difference in Hin as [_ Hin]. apply Hin.
      by apply elem_of_singleton.
  - assert (Hlk : heap (counter_add p (-1) (world st)) !! p =
                  Some (set_streamCouter (wrap32 (streamCouter ctx - 1)) ctx)).
    { unfold counter_add. by rewrite ctx_update_lookup, Hp. }
    split.
    + by rewrite handler_exit_heap.
    + unfold handler_exit. rewrite Hlk. simpl streamCouter. simpl closed.
      by destruct (_ && _).
Qed.

Lemma stream_counter_and_idle_set_witness :
  exists st ctx,
    sys_run [ANew 50 (Some auth_alice) 0; AEnter 0; AEnter 0; AExit 0; AExit 0] sys_init
      = Some st /\
    heap (world st) !! 0%nat = Some ctx /\
    0 <= streamCouter ctx /\
    (0%nat ∈ emptySessions (world st) -> streamCouter ctx = 0 /\ closed ctx = false).
Proof.
  eexists _, _.
  split; [vm_compute; reflexivity |]. split; [reflexivity |].
  pose proof (stream_counter_and_idle_set
                [ANew 50 (Some auth_alice) 0; AEnter 0; AEnter 0; AExit 0; AExit 0]
                _ 0%nat _ ltac:(vm_compute; reflexivity) eq_refl) as (H1 & H2 & _).
  split; [exact H1 | exact H2].
Defined.

(** Without the indivisibility the implication fails as well: handler A
    decrements to zero and reads [closed = false]; handler B enters; A then
    stores the context, which is now in the set with one handler running. *)
Remark exit_enter_race :
  let w0 := handler_enter 0 world_alice in
  let w1 := counter_add 0 (-1) w0 in
  let w2 := handler_enter 0 w1 in
  let w3 := es_store 0 w2 in
  (streamCouter <$> heap w1 !! 0%nat = Some 0 /\ closed <$> heap w1 !! 0%nat = Some false) /\
  0%nat ∈ emptySessions w3 /\ streamCouter <$> heap w3 !! 0%nat = Some 1.
Proof.
  cbv zeta. split; [split; reflexivity |]. split; [| reflexivity].
  unfold es_store. simpl. apply elem_of_union_l. by apply elem_of_singleton.
Qed.

(** ** Teardown *)

(** C9, counterexample: the reaper closes the context of session 50 at
    second 1001; [AcceptStream] then fails with [ErrSessionShutdown], the
    accept loop returns and its deferred [close] marks the context closed
    and closes the session a second time. *)
Lemma teardown_once_fails : ~ teardown_once.
Proof.
  intros H.
  destruct (H env_ex cfg_ex (1001 * Second) 50%nat 0%nat ErrSessionShutdown
              world_after_relay _ ltac:(vm_compute; reflexivity) eq_refl)
    as [Hmark _].
  - vm_compute. apply elem_of_cons. by left.
  - apply Hmark. vm_compute. apply elem_of_cons. by left.
Qed.

(** The whole scenario: the reaper's close and the deferred close of the
    accept loop both run the full sequence. *)
Remark reaper_then_deferred_close :
  (reaper_tick cfg_ex (fun _ => 1001 * Second) world_after_relay).2
    = [EvMarkClosed 0; EvSessionClose 50; EvEmptyDelete 0] /\
  (serve_loop env_ex cfg_ex 50 0 [inl ErrSessionShutdown] world_reaped).1.2
    = [EvMarkClosed 0; EvSessionClose 50; EvEmptyDelete 0] /\
  (serve_loop env_ex cfg_ex 50 0 [inl ErrSessionShutdown] world_reaped).2
    = Some (Some ErrSessionShutdown).
Proof. split; [| split]; vm_compute; reflexivity. Qed.

(** C9, amended: [close] has no guard.  Each call on a context marks it
    closed, deregisters it from its peer-relay room when [isP2SP] is set and
    the auth record is present, closes the session and removes the context
    from [emptySessions], in this order, whether or not the context was
    closed before; a second call runs the same sequence again.  After a
    call the context is closed and not in the set, and the flag is only ever
    written [true]: a closed context stays closed through every later step
    of the accept loop, the handlers and the reaper. *)
Theorem close_unguarded_closed_persists
        (p : nat) (w : World) (ctx : sessionContext)
        (acts : list Act) (st st' : Sys) :
  heap w !! p = Some ctx ->
  world st = (close p w).1 ->
  sys_run acts st = Some st' ->
  let dereg := match isP2SP ctx, auth ctx with
               | true, Some a => [EvRemoveP2sp (P2SPRoomId a) (P2SPConnId a) (session ctx)]
               | _, _ => []
               end in
  (close p w).2 = [EvMarkClosed p] ++ dereg ++ [EvSessionClose (session ctx); EvEmptyDelete p] /\
  (close p (close p w).1).2 = (close p w).2 /\
  heap (close p w).1 !! p = Some (set_closed true ctx) /\
  (p ∉ emptySessions (close p w).1) /\
  exists ctx', heap (world st') !! p = Some ctx' /\ closed ctx' = true /\
               session ctx' = session ctx.
Proof.
  intros Hp Hw Hrun dereg.
  assert (Hlk : heap (close p w).1 !! p = Some (set_closed true ctx)).
  { rewrite close_lookup, Hp. simpl. by destruct (decide (p = p)). }
  split; [by rewrite (close_spec p w ctx Hp) |].
  split.
  { rewrite (close_spec _ _ _ Hlk), (close_spec p w ctx Hp). reflexivity. }
  split; [exact Hlk |].
  split.
  { intros Hin. apply close_members in Hin as [_ Hin]. by apply Hin. }
  pose proof (sys_run_evolves acts st st' Hrun) as Hev.
  rewrite Hw in Hev.
  destruct (Hev p _ Hlk) as (ctx' & Hctx' & _ & Hs & Hc).
  exists ctx'. split; [done |]. split; [by apply Hc | done].
Qed.

Lemma close_unguarded_closed_persists_witness :
  (close 0 (close 0 world_after_relay).1).2 = (close 0 world_after_relay).2 /\
  (close 0 world_after_relay).2 = [EvMarkClosed 0; EvSessionClose 50; EvEmptyDelete 0].
Proof.
  destruct (close_unguarded_closed_persists 0 world_after_relay _
              [AServe env_ex cfg_ex 50 0 (inl ErrSessionShutdown)]
              {| world := (close 0 world_after_relay).1; active := [0%nat] |} _
              ltac:(vm_compute; reflexivity) eq_refl ltac:(vm_compute; reflexivity))
    as (H1 & H2 & _).
  split; [exact H2 | exact H1].
Defined.

(** ** Reaper and [activeIOTime] *)

(** No step of the accept loop, of a handler or of the reaper writes
    [activeIOTime]: it keeps the value given at lines 218-221. *)
Lemma activeIOTime_never_refreshed acts st st' p ctx :
  sys_run acts st = Some st' ->
  heap (world st) !! p = Some ctx ->
  exists ctx', heap (world st') !! p = Some ctx' /\ activeIOTime ctx' = activeIOTime ctx.
Proof.
  intros Hrun Hp. destruct (sys_run_evolves acts st st' Hrun p ctx Hp) as (c' & ? & ? & _).
  by exists c'.
Qed.

(** C4: session 50 is created at time 0 under a session idle timeout of
    60 s.  Its one stream relays until second 1000, with I/O on the stream
    one second before each of the loop's turns.  When the handler returns,
    [activeIOTime] is still 0; the context enters [emptySessions], and the
    reaper's tick at second 1001 measures 1001 s of inactivity and closes
    the session, one second after its last I/O. *)
Theorem reaper_measures_session_age :
  (handleProxyStream env_ex cfg_ex 7 0 [obs_busy 400; obs_busy 800; obs_done 1000]
                     true world_alice).2 = Returned /\
  activeIOTime <$> heap world_alice !! 0%nat = Some 0 /\
  activeIOTime <$> heap world_after_relay !! 0%nat = Some 0 /\
  elements (emptySessions world_after_relay) = [0%nat] /\
  reaper_visit cfg_ex (1001 * Second) 0 world_after_relay = close 0 world_after_relay /\
  (reaper_tick cfg_ex (fun _ => 1001 * Second) world_after_relay).2
    = [EvMarkClosed 0; EvSessionClose 50; EvEmptyDelete 0] /\
  closed <$> heap world_reaped !! 0%nat = Some true.
Proof.
  repeat split; vm_compute; reflexivity.
Qed.

(** * Further properties *)

(** ** Rate limiter registry *)

Section RegistryShape.

Variable tb : string -> error + Z.

Lemma rl_wf_init : rl_wf rl_init.
Proof.
  split; [reflexivity |]. split.
  - intros k r H. simpl in H. by rewrite lookup_empty in H.
  - intros k1 k2 r H. simpl in H. by rewrite lookup_empty in H.
Qed.

Lemma rl_wf_call cfg user st :
  rl_wf st -> rl_wf (rl_state (getRateLimitBucket tb cfg user st)).
Proof.
  intros (Hsize & Hlt & Hinj). unfold getRateLimitBucket, rl_state.
  destruct (limit_entry cfg user) as [[k l]|]; [| done].
  destruct (limitPerSec tb l <=? 0); [done |].
  destruct (rateLimitBuckets st !! k) as [r'|] eqn:Ek; simpl; [done |].
  split; [| split]; simpl.
  - rewrite map_size_insert_None by done. rewrite length_app. simpl. lia.
  - intros k' r Hk. rewrite length_app. simpl.
    destruct (decide (k = k')) as [<-|Hne].
    + rewrite lookup_insert_eq in Hk. injection Hk as <-. lia.
    + rewrite lookup_insert_ne in Hk by done. specialize (Hlt k' r Hk). lia.
  - intros k1 k2 r H1 H2.
    destruct (decide (k = k1)) as [<-|Hne1]; destruct (decide (k = k2)) as [<-|Hne2].
    + done.
    + rewrite lookup_insert_eq in H1. injection H1 as <-.
      rewrite lookup_insert_ne in H2 by done. specialize (Hlt k2 _ H2). lia.
    + rewrite lookup_insert_eq in H2. injection H2 as <-.
      rewrite lookup_insert_ne in H1 by done. specialize (Hlt k1 _ H1). lia.
    + rewrite lookup_insert_ne in H1 by done. rewrite lookup_insert_ne in H2 by done.
      by eapply Hinj.
Qed.

Lemma rl_wf_run calls st : rl_wf st -> rl_wf (rl_run tb calls st).
Proof.
  revert st. induction calls as [|[cfg u] calls IH]; intros st H; simpl; [done |].
  apply IH. by apply rl_wf_call.
Qed.

Lemma rl_call_grows cfg user st :
  bucketHeap st `prefix_of` bucketHeap (rl_state (getRateLimitBucket tb cfg user st)) /\
  rateLimitBuckets st ⊆ rateLimitBuckets (rl_state (getRateLimitBucket tb cfg user st)).
Proof.
  unfold getRateLimitBucket, rl_state.
  destruct (limit_entry cfg user) as [[k l]|]; [| done].
  destruct (limitPerSec tb l <=? 0); [done |].
  destruct (rateLimitBuckets st !! k) as [r'|] eqn:Ek; simpl; [done |].
  split; [by apply prefix_app_r | by apply insert_subseteq].
Qed.

Lemma rl_run_grows calls st :
  bucketHeap st `prefix_of` bucketHeap (rl_run tb calls st) /\
  rateLimitBuckets st ⊆ rateLimitBuckets (rl_run tb calls st).
Proof.
  revert st. induction calls as [|[cfg u] calls IH]; intros st; simpl; [done |].
  destruct (rl_call_grows cfg u st) as [H1 H2].
  destruct (IH (rl_state (getRateLimitBucket tb cfg u st))) as [H3 H4].
  split; etrans; eauto.
Qed.

End RegistryShape.

(** X1: a call that returns no bucket touches nothing: the registry is as
    before and the lock is not taken.  A call that returns a bucket takes
    the lock once, first of all, looks up the key, and releases the lock
    last; the pointer it returns is the one cached under the key and is
    allocated. *)
Theorem getRateLimitBucket_nil_is_silent
        (tb : string -> error + Z) (cfg : RateLimitConfig) (user : string)
        (st : RLState) :
  let res := getRateLimitBucket tb cfg user st in
  match rl_result res with
  | None => rl_state res = st /\ rl_trace res = []
  | Some r =>
      exists key mid,
        rl_trace res = RLLock :: RLLoad key :: (mid ++ [RLUnlock]) /\
        (RLLock ∉ mid) /\ (RLUnlock ∉ mid) /\
        (key = user \/ key = "*"%string) /\
        rateLimitBuckets (rl_state res) !! key = Some r /\
        (rateLimitBuckets st !! key = Some r /\ rl_state res = st /\ mid = [] \/
         rateLimitBuckets st !! key = None /\ r = length (bucketHeap st) /\
         exists b, mid = [RLAlloc r b; RLStore key r] /\
                   bucketHeap (rl_state res) = bucketHeap st ++ [b])
  end.
Proof.
  cbv zeta. unfold getRateLimitBucket, rl_result, rl_state, rl_trace.
  destruct (limit_entry cfg user) as [[key l]|] eqn:E; [| done].
  destruct (limitPerSec tb l <=? 0); [done |].
  destruct (limit_entry_key cfg user key l E) as [_ Hkey].
  destruct (rateLimitBuckets st !! key) as [r|] eqn:Ek; simpl.
  - exists key, []. split; [done |].
    split; [by intros H; apply elem_of_nil in H |].
    split; [by intros H; apply elem_of_nil in H |].
    split; [done |]. split; [done |]. left. done.
  - eexists key, [_; _]. split; [reflexivity |].
    split.
    { intros H. repeat (apply elem_of_cons in H as [H|H]; [done |]).
      by apply elem_of_nil in H. }
    split.
    { intros H. repeat (apply elem_of_cons in H as [H|H]; [done |]).
      by apply elem_of_nil in H. }
    split; [done |]. split; [apply lookup_insert_eq |].
    right. split; [done |]. split; [done |]. eexists. split; reflexivity.
Qed.

(** X2: an entry of the user's own always decides, also against the
    wildcard.  When the user has an entry, no bucket is returned exactly
    when that entry's byte count is not positive (an empty or unparsable
    string counts as -1), whatever the wildcard entry says; and a bucket that
    is returned is cached under the user's own name. *)
Theorem own_entry_shadows_wildcard
        (tb : string -> error + Z) (cfg : RateLimitConfig)
        (m : gmap string string) (user l : string) (st : RLState) :
  Limit cfg = Some m -> m !! user = Some l ->
  let res := getRateLimitBucket tb cfg user st in
  (rl_result res = None <-> limitPerSec tb l <= 0) /\
  (forall r, rl_result res = Some r ->
             rateLimitBuckets (rl_state res) !! user = Some r /\
             (user ≠ "*"%string ->
              rateLimitBuckets (rl_state res) !! "*"%string
                = rateLimitBuckets st !! "*"%string)).
Proof.
  intros Hm Hu res. subst res.
  assert (E : limit_entry cfg user = Some (user, l)).
  { unfold limit_entry. by rewrite Hm, Hu. }
  unfold getRateLimitBucket, rl_result, rl_state. rewrite E.
  destruct (Z.leb_spec (limitPerSec tb l) 0) as [Hle|Hgt].
  - split; [done |]. intros r H. discriminate.
  - split.
    { split; [| lia]. destruct (rateLimitBuckets st !! user); discriminate. }
    intros r Hr.
    destruct (rateLimitBuckets st !! user) as [r'|] eqn:Ek; simpl in *.
    + injection Hr as <-. done.
    + injection Hr as <-. split; [apply lookup_insert_eq |].
      intros Hs. by rewrite lookup_insert_ne.
Qed.

Lemma own_entry_shadows_wildcard_witness :
  rl_result (getRateLimitBucket tb_ex limit_zero_alice "alice" rl_init) = None /\
  (exists r, rl_result (getRateLimitBucket tb_ex limit_zero_alice "bob" rl_init) = Some r).
Proof.
  split.
  - apply (own_entry_shadows_wildcard tb_ex limit_zero_alice
             (<[ "alice"%string := "0"%string ]> {[ "*"%string := "1000"%string ]})
             "alice" "0" rl_init eq_refl eq_refl). vm_compute. discriminate.
  - eexists. vm_compute. reflexivity.
Defined.

(** X3: buckets are per key.  In a registry built by any calls from the
    empty one, two different users that each have an entry of their own with
    a positive byte count are given two different buckets, whatever calls
    come between theirs and whatever the configuration was before. *)
Theorem distinct_users_distinct_buckets
        (tb : string -> error + Z) (before between : list (RateLimitConfig * string))
        (cfg : RateLimitConfig) (m : gmap string string) (u1 u2 l1 l2 : string) :
  Limit cfg = Some m ->
  m !! u1 = Some l1 -> 0 < limitPerSec tb l1 ->
  m !! u2 = Some l2 -> 0 < limitPerSec tb l2 ->
  u1 ≠ u2 ->
  let st := rl_run tb before rl_init in
  let c1 := getRateLimitBucket tb cfg u1 st in
  let c2 := getRateLimitBucket tb cfg u2 (rl_run tb between (rl_state c1)) in
  exists r1 r2, rl_result c1 = Some r1 /\ rl_result c2 = Some r2 /\ r1 ≠ r2.
Proof.
  intros Hm H1 Hp1 H2 Hp2 Hne st c1 c2.
  assert (E1 : limit_entry cfg u1 = Some (u1, l1)).
  { unfold limit_entry. by rewrite Hm, H1. }
  assert (E2 : limit_entry cfg u2 = Some (u2, l2)).
  { unfold limit_entry. by rewrite Hm, H2. }
  assert (exists r1, rl_result c1 = Some r1 /\
                     rateLimitBuckets (rl_state c1) !! u1 = Some r1) as (r1 & Hr1 & Hc1).
  { subst c1. destruct (rateLimitBuckets st !! u1) as [r|] eqn:Ek.
    - rewrite (getRateLimitBucket_cached tb cfg u1 st _ l1 r E1 Hp1 Ek). eauto.
    - rewrite (getRateLimitBucket_fresh tb cfg u1 st _ l1 E1 Hp1 Ek).
      eexists. split; [reflexivity |]. apply lookup_insert_eq. }
  set (st2 := rl_run tb between (rl_state c1)) in *.
  assert (Hwf2 : rl_wf (rl_state c2)).
  { subst c2 st2 c1 st. apply rl_wf_call, rl_wf_run, rl_wf_call, rl_wf_run, rl_wf_init. }
  assert (Hk1 : rateLimitBuckets st2 !! u1 = Some r1).
  { destruct (rl_run_grows tb between (rl_state c1)) as [_ Hsub].
    eapply lookup_weaken; [exact Hc1 | exact Hsub]. }
  assert (exists r2, rl_result c2 = Some r2 /\
                     rateLimitBuckets (rl_state c2) !! u2 = Some r2) as (r2 & Hr2 & Hc2).
  { subst c2. destruct (rateLimitBuckets st2 !! u2) as [r|] eqn:Ek.
    - rewrite (getRateLimitBucket_cached tb cfg u2 st2 _ l2 r E2 Hp2 Ek). eauto.
    - rewrite (getRateLimitBucket_fresh tb cfg u2 st2 _ l2 E2 Hp2 Ek).
      eexists. split; [reflexivity |]. apply lookup_insert_eq. }
  exists r1, r2. split; [done |]. split; [done |].
  intros ->. apply Hne.
  destruct Hwf2 as (_ & _ & Hinj). apply (Hinj u1 u2 r2); [| done].
  destruct (rl_call_grows tb cfg u2 st2) as [_ Hsub].
  eapply lookup_weaken; [exact Hk1 | exact Hsub].
Qed.

Lemma distinct_users_distinct_buckets_witness :
  exists r1 r2,
    rl_result (getRateLimitBucket tb_ex limit_two "alice"
                 (rl_run tb_ex [(limit_star, "carol"%string)] rl_init)) = Some r1 /\
    rl_result (getRateLimitBucket tb_ex limit_two "bob"
                 (rl_run tb_ex []
                    (rl_state (getRateLimitBucket tb_ex limit_two "alice"
                       (rl_run tb_ex [(limit_star, "carol"%string)] rl_init))))) = Some r2 /\
    r1 ≠ r2.
Proof.
  apply (distinct_users_distinct_buckets tb_ex [(limit_star, "carol"%string)] []
           limit_two
           (<[ "alice"%string := "1000"%string ]> {[ "bob"%string := "1000"%string ]})
           "alice" "bob" "1000" "1000");
    [reflexivity | reflexivity | reflexivity | reflexivity | reflexivity | discriminate].
Defined.

(** X4: the registry only grows.  Over any sequence of calls, under
    configurations that may change from call to call, no bucket is removed
    or replaced and no key is rebound: the buckets allocated before are a
    prefix of those allocated after, every key keeps its pointer, and there
    are always exactly as many buckets as keys.  So a key that is cached
    keeps the bucket it was first given even when its configured rate
    changes. *)
Theorem registry_only_grows
        (tb : string -> error + Z) (before more : list (RateLimitConfig * string)) :
  let st := rl_run tb before rl_init in
  let st' := rl_run tb more st in
  bucketHeap st `prefix_of` bucketHeap st' /\
  (forall key r, rateLimitBuckets st !! key = Some r ->
     rateLimitBuckets st' !! key = Some r /\
     exists b, bucketHeap st !! r = Some b /\ bucketHeap st' !! r = Some b) /\
  size (rateLimitBuckets st') = length (bucketHeap st').
Proof.
  intros st st'.
  destruct (rl_run_grows tb more st) as [Hpre Hsub].
  pose proof (rl_wf_run tb before rl_init rl_wf_init) as (Hsize & Hlt & _).
  pose proof (rl_wf_run tb more st (rl_wf_run tb before rl_init rl_wf_init))
    as (Hsize' & _ & _).
  split; [exact Hpre |]. split; [| exact Hsize'].
  intros key r Hk. split; [by eapply lookup_weaken |].
  destruct (lookup_lt_is_Some_2 (bucketHeap st) r (Hlt key r Hk)) as [b Hb].
  exists b. split; [done |]. by eapply prefix_lookup_Some.
Qed.

(** ** Teardown and reaper *)

Section ReaperFacts.

Variables (cfg : Config) (clock : nat -> Z).

Lemma close_members_iff p q w :
  q ∈ emptySessions (close p w).1 <->
  q ∈ emptySessions w /\ (is_Some (heap w !! p) -> q ≠ p).
Proof.
  split; [apply close_members |].
  unfold close. destruct (heap w !! p) as [ctx|] eqn:E; simpl.
  - intros [Hin Hne]. apply elem_of_difference. split; [done |].
    intros Hq. apply elem_of_singleton in Hq. by apply Hne.
  - by intros [Hin _].
Qed.

Lemma reaper_due_close p w q :
  reaper_due cfg clock (close p w).1 q = reaper_due cfg clock w q.
Proof.
  unfold reaper_due. rewrite close_lookup.
  destruct (heap w !! q) as [c|]; [| done]. simpl.
  by destruct (decide (p = q)).
Qed.

Lemma reaper_visit_world p w :
  (reaper_visit cfg (clock p) p w).1 =
    if reaper_due cfg clock w p then (close p w).1 else w.
Proof.
  unfold reaper_visit, reaper_due. destruct (heap w !! p); [| done].
  by destruct (_ >? _).
Qed.

Lemma reaper_due_visit p w q :
  reaper_due cfg clock (reaper_visit cfg (clock p) p w).1 q = reaper_due cfg clock w q.
Proof.
  rewrite reaper_visit_world. destruct (reaper_due cfg clock w p); [| done].
  apply reaper_due_close.
Qed.

Lemma set_closed_twice c : set_closed true (set_closed true c) = set_closed true c.
Proof. reflexivity. Qed.

(** The store after the reaper has visited [keys]. *)
Lemma reaper_range_lookup keys w q :
  heap (reaper_range cfg clock keys w).1 !! q =
    (if bool_decide (q ∈ keys) && reaper_due cfg clock w q
     then set_closed true else id) <$> heap w !! q.
Proof.
  revert w. induction keys as [|p keys IH]; intros w.
  - simpl. by destruct (heap w !! q).
  - cbn [reaper_range].
    destruct (reaper_visit cfg (clock p) p w) as [w1 ev1] eqn:Ev.
    destruct (reaper_range cfg clock keys w1) as [w2 ev2] eqn:Er.
    assert (Hw1 : w1 = (reaper_visit cfg (clock p) p w).1) by (by rewrite Ev).
    assert (Hw2 : w2 = (reaper_range cfg clock keys w1).1) by (by rewrite Er).
    simpl. rewrite Hw2, IH, Hw1, reaper_due_visit, reaper_visit_world.
    destruct (decide (q = p)) as [->|Hne].
    + rewrite (bool_decide_eq_true_2 (p ∈ p :: keys)) by (apply elem_of_cons; by left).
      destruct (reaper_due cfg clock w p) eqn:Ed; simpl.
      * rewrite close_lookup. destruct (heap w !! p) as [c|]; [| done].
        simpl. destruct (decide (p = p)); [| done].
        by destruct (bool_decide (p ∈ keys)).
      * rewrite andb_false_r. done.
    + assert (Hdec : bool_decide (q ∈ p :: keys) = bool_decide (q ∈ keys)).
      { apply bool_decide_ext. rewrite elem_of_cons.
        split; [intros [Hq|Hq]; done | by right]. }
      rewrite Hdec.
      destruct (reaper_due cfg clock w p); [| done].
      rewrite close_lookup. destruct (decide (p = q)); [congruence |].
      by destruct (heap w !! q).
Qed.

Lemma reaper_range_members keys w q :
  q ∈ emptySessions (reaper_range cfg clock keys w).1 <->
  q ∈ emptySessions w /\ ~ (q ∈ keys /\ reaper_due cfg clock w q = true).
Proof.
  revert w. induction keys as [|p keys IH]; intros w.
  - simpl. split; [| by intros [? _]]. intros H. split; [done |].
    intros [Hin _]. by apply elem_of_nil in Hin.
  - cbn [reaper_range].
    destruct (reaper_visit cfg (clock p) p w) as [w1 ev1] eqn:Ev.
    destruct (reaper_range cfg clock keys w1) as [w2 ev2] eqn:Er.
    assert (Hw1 : w1 = (reaper_visit cfg (clock p) p w).1) by (by rewrite Ev).
    assert (Hw2 : w2 = (reaper_range cfg clock keys w1).1) by (by rewrite Er).
    simpl. rewrite Hw2, IH, Hw1, reaper_due_visit, reaper_visit_world.
    rewrite elem_of_cons.
    destruct (reaper_due cfg clock w p) eqn:Ed.
    + rewrite close_members_iff.
      assert (Hal : is_Some (heap w !! p)).
      { unfold reaper_due in Ed. destruct (heap w !! p); [by eexists | done]. }
      split.
      * intros [[Hin Hne] Hk]. split; [done |].
        intros [[->|Hq] Hd]; [by apply Hne | by apply Hk].
      * intros [Hin Hk]. split; [split; [done |] |].
        -- intros _ ->. apply Hk. split; [by left | done].
        -- intros [Hq Hd]. apply Hk. split; [by right | done].
    + split.
      * intros [Hin Hk]. split; [done |].
        intros [[->|Hq] Hd]; [congruence | by apply Hk].
      * intros [Hin Hk]. split; [done |].
        intros [Hq Hd]. apply Hk. split; [by right | done].
Qed.

End ReaperFacts.

(** X5: [close] acts on its own context only, and a second [close]
    changes nothing more: the store after two calls is the store after one
    (the collaborators are called again, the store is not touched again).
    Every other context, and its membership in [emptySessions], is as
    before. *)
Theorem close_idempotent_and_local (p : nat) (w : World) :
  (close p (close p w).1).1 = (close p w).1 /\
  (forall q, q ≠ p ->
     heap (close p w).1 !! q = heap w !! q /\
     (q ∈ emptySessions (close p w).1 <-> q ∈ emptySessions w)) /\
  rl (close p w).1 = rl w /\
  length (heap (close p w).1) = length (heap w).
Proof.
  split; [| split; [| split]].
  - unfold close at 1. rewrite close_lookup.
    destruct (heap w !! p) as [ctx|] eqn:E; simpl.
    + destruct (decide (p = p)); [| done].
      unfold close. rewrite E. simpl.
      unfold es_delete, ctx_update. simpl. f_equal.
      * rewrite list_alter_alter_eq. by apply list_alter_ext.
      * apply set_eq. intros x. rewrite !elem_of_difference. tauto.
    + unfold close. by rewrite E.
  - intros q Hne. split.
    + rewrite close_lookup. destruct (decide (p = q)); [congruence |].
      by destruct (heap w !! q).
    + rewrite close_members_iff. split; [by intros [? _] |].
      intros H. split; [done |]. by intros _.
  - unfold close. by destruct (heap w !! p).
  - apply close_length.
Qed.

(** X6: what a tick of the reaper does.  With a positive session idle
    timeout it closes exactly the contexts that are in [emptySessions] and
    whose [activeIOTime] lies more than the timeout before the clock read at
    their visit (strictly more: a context idle for exactly the timeout
    stays); those contexts leave the set, every other context is left as it
    was and the set gains no member.  With a timeout of zero or less the
    tick does nothing. *)
Theorem reaper_tick_closes_exactly_overdue
        (cfg : Config) (clock : nat -> Z) (w : World) (q : nat) :
  let w' := (reaper_tick cfg clock w).1 in
  let reaped := bool_decide (0 < SessionIdleTimeout (defaultMuxConfig cfg))
                && bool_decide (q ∈ emptySessions w)
                && reaper_due cfg clock w q in
  heap w' !! q = (if reaped then set_closed true else id) <$> heap w !! q /\
  (q ∈ emptySessions w' <-> q ∈ emptySessions w /\ reaped = false).
Proof.
  cbv zeta. unfold reaper_tick.
  destruct (Z.gtb_spec (SessionIdleTimeout (defaultMuxConfig cfg)) 0) as [Hpos|Hnp].
  - rewrite (bool_decide_eq_true_2 (0 < _)) by lia. simpl.
    rewrite reaper_range_lookup, reaper_range_members.
    assert (Hdec : bool_decide (q ∈ elements (emptySessions w))
                   = bool_decide (q ∈ emptySessions w)).
    { apply bool_decide_ext, elem_of_elements. }
    rewrite Hdec. split; [done |].
    rewrite elem_of_elements.
    destruct (bool_decide_reflect (q ∈ emptySessions w)) as [Hin|Hout]; simpl.
    + destruct (reaper_due cfg clock w q); split.
      * intros [_ H]. exfalso. by apply H.
      * by intros [_ ?].
      * by intros [? _].
      * intros [? _]. split; [done |]. by intros [_ ?].
    + split; intros [? _]; done.
  - rewrite (bool_decide_eq_false_2 (0 < _)) by lia. simpl.
    split; [by destruct (heap w !! q) |]. split; [done | by intros [? _]].
Qed.

(** X7: a session with a running handler is never reaped.  In every state
    the program reaches (handler entry, exit and [close] taken as
    indivisible steps), a tick of the reaper leaves any context on which at
    least one handler is running exactly as it was, however long ago its
    [activeIOTime] lies. *)
Theorem reaper_spares_busy_sessions
        (acts : list Act) (st : Sys) (cfg : Config) (clock : nat -> Z)
        (p n : nat) :
  sys_run acts sys_init = Some st ->
  active st !! p = Some (S n) ->
  heap (reaper_tick cfg clock (world st)).1 !! p = heap (world st) !! p /\
  (exists ctx, heap (world st) !! p = Some ctx /\ 0 < streamCouter ctx) /\
  p ∉ emptySessions (reaper_tick cfg clock (world st)).1.
Proof.
  intros Hrun Hn.
  pose proof (sys_run_inv acts sys_init st sys_inv_init Hrun) as [Hlen Hinv].
  assert (is_Some (heap (world st) !! p)) as [ctx Hp].
  { apply lookup_lt_is_Some. rewrite <- Hlen. by eapply lookup_lt_Some. }
  destruct (Hinv p ctx (S n) Hp Hn) as (H1 & _ & H3).
  assert (Hout : p ∉ emptySessions (world st)).
  { intros Hin. by destruct (H3 Hin). }
  assert (Hsame : forall w1,
             (heap w1 !! p = heap (world st) !! p /\ (p ∉ emptySessions w1)) ->
             heap w1 !! p = heap (world st) !! p /\
             (exists ctx, heap (world st) !! p = Some ctx /\ 0 < streamCouter ctx) /\
             p ∉ emptySessions w1).
  { intros w1 [Ha Hb]. split; [done |]. split; [| done].
    exists ctx. split; [done |]. lia. }
  apply Hsame. unfold reaper_tick.
  destruct (_ >? 0); [| done].
  rewrite reaper_range_lookup, reaper_range_members.
  rewrite (bool_decide_eq_false_2 (p ∈ elements (emptySessions (world st))))
    by (by rewrite elem_of_elements).
  simpl. split; [by rewrite Hp |]. by intros [? _].
Qed.

Lemma reaper_spares_busy_sessions_witness :
  exists st,
    sys_run [ANew 50 (Some auth_alice) 0; AEnter 0] sys_init = Some st /\
    heap (reaper_tick cfg_ex (fun _ => 5000 * Second) (world st)).1 !! 0%nat
      = heap (world st) !! 0%nat.
Proof.
  eexists. split; [vm_compute; reflexivity |].
  apply (reaper_spares_busy_sessions [ANew 50 (Some auth_alice) 0; AEnter 0] _
           cfg_ex (fun _ => 5000 * Second) 0 0);
    [vm_compute; reflexivity | reflexivity].
Defined.

(** ** Stream handler *)

Section HandlerFacts.

Variables (env : Env) (cfg : Config).

Lemma wrap32_inc_dec c :
  - 2^31 <= c < 2^31 -> wrap32 (wrap32 (c + 1) + -1) = c.
Proof.
  intros Hc. destruct (decide (c + 1 < 2^31)) as [Hlt|Hge].
  - rewrite (wrap32_small (c + 1)) by lia. rewrite wrap32_small; lia.
  - assert (c = 2^31 - 1) as -> by lia. reflexivity.
Qed.

Lemma set_streamCouter_same c : set_streamCouter (streamCouter c) c = c.
Proof. by destruct c. Qed.

(** The body leaves contexts and the idle set alone; it can only add to the
    bucket registry. *)
Lemma handler_body_store stream p obs closeSig w :
  heap (handler_body env cfg stream p obs closeSig w).1.1 = heap w /\
  emptySessions (handler_body env cfg stream p obs closeSig w).1.1 = emptySessions w.
Proof.
  unfold handler_body. destruct (ReadConnectRequest env stream); [done |].
  destruct (auth <$> _) as [[a|]|]; try done.
  destruct (negb _); [done |].
  destruct (connect_dest _ _ _ _ _) as [[[ev [e|]] [d|]] m]; try done.
  destruct (getRateLimitBucket _ _ _ _) as [[b rl'] tr].
  destruct (relay_loop _ _ _ _ _) as [lev fin]. by destruct (_ && _).
Qed.

Lemma connect_dest_no_go a creq m e :
  e ∈ (connect_dest env cfg a creq m).1.1.1 -> is_go e = false.
Proof.
  unfold connect_dest. destruct (Hops creq) as [|next nextHops].
  - destruct (net_DialTimeout env _ _ _); simpl; intros H;
      apply list_elem_of_singleton in H; by subst.
  - destruct (url_Parse env next); simpl; [by intros H; apply elem_of_nil in H |].
    destruct (GetMuxStreamByURL env _ _ _); simpl.
    { intros H. apply list_elem_of_singleton in H. by subst. }
    destruct (stream_Connect env _ _ _ _); simpl; intros H;
      (apply elem_of_cons in H as [->|H]; [done |]);
      apply list_elem_of_singleton in H; by subst.
Qed.

End HandlerFacts.

(** X8: a handler that has ended leaves its context as it found it.  When
    [handleProxyStream] returns, on whatever path, the context is again
    exactly what it was at entry (the counter is back at its old value, also
    when the increment wrapped around at the top of int32), no other
    context has changed, and the context is in [emptySessions] exactly when
    its counter is zero and it is not closed: a closed context is never put
    back.  While the handler is blocked, the counter is one up and the
    context is not in the set. *)
Theorem handler_restores_context
        (env : Env) (cfg : Config) (stream p : nat) (obs : list CopyObs)
        (closeSig : bool) (w : World) (ctx : sessionContext) :
  heap w !! p = Some ctx ->
  - 2^31 <= streamCouter ctx < 2^31 ->
  let res := handleProxyStream env cfg stream p obs closeSig w in
  (forall q, q ≠ p -> heap res.1.1 !! q = heap w !! q /\
                      (q ∈ emptySessions res.1.1 <-> q ∈ emptySessions w)) /\
  match res.2 with
  | Blocked =>
      heap res.1.1 !! p = Some (set_streamCouter (wrap32 (streamCouter ctx + 1)) ctx) /\
      p ∉ emptySessions res.1.1
  | _ =>
      heap res.1.1 !! p = Some ctx /\
      (p ∈ emptySessions res.1.1 <-> streamCouter ctx = 0 /\ closed ctx = false)
  end.
Proof.
  intros Hp Hrange res. subst res. unfold handleProxyStream.
  pose proof (handler_body_store env cfg stream p obs closeSig (handler_enter p w))
    as [Hheap Hes].
  destruct (handler_body env cfg stream p obs closeSig (handler_enter p w))
    as [[w1 ev] st]. cbn [fst] in Hheap, Hes.
  assert (Hw1 : heap w1 !! p = Some (set_streamCouter (wrap32 (streamCouter ctx + 1)) ctx)).
  { by rewrite Hheap, handler_enter_lookup, Hp. }
  assert (Hw1q : forall q, q ≠ p -> heap w1 !! q = heap w !! q /\
                                    (q ∈ emptySessions w1 <-> q ∈ emptySessions w)).
  { intros q Hne. rewrite Hheap, Hes. unfold handler_enter, es_delete, counter_add.
    simpl. split; [by apply list_lookup_alter_ne |].
    rewrite elem_of_difference, elem_of_singleton. tauto. }
  assert (Hw1p : p ∉ emptySessions w1).
  { rewrite Hes. unfold handler_enter, es_delete. simpl.
    rewrite elem_of_difference, elem_of_singleton. tauto. }
  assert (Hexit :
    (forall q, q ≠ p -> heap (handler_exit p w1) !! q = heap w !! q /\
                        (q ∈ emptySessions (handler_exit p w1) <-> q ∈ emptySessions w)) /\
    heap (handler_exit p w1) !! p = Some ctx /\
    (p ∈ emptySessions (handler_exit p w1) <-> streamCouter ctx = 0 /\ closed ctx = false)).
  { assert (Hlk : heap (counter_add p (-1) w1) !! p = Some ctx).
    { unfold counter_add. rewrite ctx_update_lookup, Hw1. simpl.
      unfold set_streamCouter at 1. simpl.
      rewrite wrap32_inc_dec by done. by destruct ctx. }
    unfold handler_exit. rewrite Hlk.
    assert (Hq : forall q, q ≠ p -> heap (counter_add p (-1) w1) !! q = heap w !! q).
    { intros q Hne. unfold counter_add. rewrite ctx_update_lookup_ne by done.
      by apply Hw1q. }
    destruct ((streamCouter ctx =? 0) && negb (closed ctx)) eqn:Ec.
    - apply andb_true_iff in Ec as [Hz Hc]. apply Z.eqb_eq in Hz.
      apply negb_true_iff in Hc. split; [| split].
      + intros q Hne. split; [by apply Hq |].
        unfold es_store. simpl. rewrite elem_of_union, elem_of_singleton.
        destruct (Hw1q q Hne) as [_ Hm]. rewrite <- Hm.
        unfold counter_add, ctx_update. simpl. tauto.
      + exact Hlk.
      + unfold es_store. simpl. rewrite elem_of_union, elem_of_singleton. tauto.
    - split; [| split].
      + intros q Hne. split; [by apply Hq |]. by apply Hw1q.
      + exact Hlk.
      + split.
        * intros Hin. exfalso. by apply Hw1p.
        * intros [Hz Hc]. rewrite Hz, Hc in Ec. discriminate. }
  destruct st; simpl.
  - destruct Hexit as (H1 & H2 & H3). done.
  - done.
  - destruct Hexit as (H1 & H2 & H3). done.
Qed.

Lemma handler_restores_context_witness :
  heap (handleProxyStream env_ex cfg_ex 9 0 [] true world_alice).1.1 !! 0%nat
    = heap world_alice !! 0%nat /\
  0%nat ∈ emptySessions (handleProxyStream env_ex cfg_ex 9 0 [] true world_alice).1.1.
Proof.
  destruct (handler_restores_context env_ex cfg_ex 9 0 [] true world_alice _
              eq_refl ltac:(split; [discriminate | reflexivity])) as [_ H].
  change ((handleProxyStream env_ex cfg_ex 9 0 [] true world_alice).2) with Returned in H.
  destruct H as [H1 H2]. split; [exact H1 |]. apply H2. split; reflexivity.
Defined.

(** X9: no destination, no side effects.  When the connect request cannot
    be read, the policy rejects its address, or establishing the
    destination fails, [handleProxyStream] returns having started no copy
    task, set no deadline, wrapped no reader and left the bucket registry
    untouched; when the request was unreadable or rejected it has not
    dialled or contacted any hop either: its whole trace is the close of
    the stream. *)
Theorem aborted_stream_has_no_side_effects
        (env : Env) (cfg : Config) (stream p : nat) (obs : list CopyObs)
        (closeSig : bool) (w : World) (a : AuthRequest) :
  auth <$> heap w !! p = Some (Some a) ->
  let res := handleProxyStream env cfg stream p obs closeSig w in
  match ReadConnectRequest env stream with
  | inl _ => res.1.2 = [EvStreamClose stream] /\ res.2 = Returned /\ rl res.1.1 = rl w
  | inr creq =>
      if Allowed env (Addr creq) then
        forall ev e d m,
          connect_dest env cfg a creq (default_maxIdleTime cfg) = (ev, Some e, d, m) ->
          res.1.2 = ev ++ [EvStreamClose stream] /\ res.2 = Returned /\
          rl res.1.1 = rl w /\
          (forall x, x ∈ res.1.2 -> is_go x = false)
      else res.1.2 = [EvStreamClose stream] /\ res.2 = Returned /\ rl res.1.1 = rl w
  end.
Proof.
  intros Ha res. subst res.
  assert (Ha' : auth <$> heap (handler_enter p w) !! p = Some (Some a))
    by (by rewrite handler_enter_auth).
  assert (Hrl : forall w1, rl (handler_exit p w1) = rl w1).
  { intros w1. unfold handler_exit.
    destruct (heap (counter_add p (-1) w1) !! p) as [c|]; [| done].
    by destruct ((streamCouter c =? 0) && negb (closed c)). }
  unfold handleProxyStream.
  destruct (ReadConnectRequest env stream) as [e|creq] eqn:E1.
  - rewrite (handler_body_read_fail env cfg _ _ _ _ _ e E1). simpl.
    by rewrite Hrl.
  - destruct (Allowed env (Addr creq)) eqn:E2.
    + intros ev e d m Hcd.
      rewrite (handler_body_connect_fail env cfg _ _ _ _ _ creq a ev e d m E1 Ha' E2 Hcd).
      simpl. rewrite Hrl. split; [done |]. split; [done |]. split; [done |].
      intros x Hx. apply elem_of_app in Hx as [Hx|Hx].
      * apply (connect_dest_no_go env cfg a creq (default_maxIdleTime cfg)).
        by rewrite Hcd.
      * apply list_elem_of_singleton in Hx. by subst.
    + rewrite (handler_body_rejected env cfg _ _ _ _ _ creq a E1 Ha' E2). simpl.
      by rewrite Hrl.
Qed.

Lemma aborted_stream_has_no_side_effects_witness :
  (handleProxyStream env_ex cfg_ex 9 0 [obs_eof] true world_alice).1.2 = [EvStreamClose 9] /\
  (handleProxyStream env_ex cfg_ex 10 0 [obs_eof] true world_alice).1.2
    = [EvDial "tcp" "down.example.org:80" (10000 * Millisecond); EvStreamClose 10].
Proof.
  split.
  - exact (proj1 (aborted_stream_has_no_side_effects env_ex cfg_ex 9 0 [obs_eof] true
                    world_alice auth_alice eq_refl)).
  - exact (proj1 (aborted_stream_has_no_side_effects env_ex cfg_ex 10 0 [obs_eof] true
                    world_alice auth_alice eq_refl
                    [EvDial "tcp" "down.example.org:80" (10000 * Millisecond)]
                    (NetError true "dial timeout") None (10 * Second) eq_refl)).
Defined.

(** X10: the course of a relayed stream.  Once the destination [c] is
    established, the handler starts the copy task, wraps the reader when a
    bucket applies to the session's user (one registry call, for that
    user), and runs the loop: one deadline per turn when [c] takes
    deadlines, up to and including the first turn that is not retried; the
    turns after it are never looked at.  The loop then closes [c] and the
    stream, in this order.  If the copy task signals, the compressed writer
    and reader are closed when they are closers, the deferred close of [c]
    comes last and the handler returns; if it does not signal, the handler
    stays blocked with destination and stream closed. *)
Theorem relayed_stream_trace
        (env : Env) (cfg : Config) (stream p : nat) (closeSig : bool) (w : World)
        (a : AuthRequest) (creq : ConnectRequest) (ev : list Event) (c : Dest)
        (m : Z) (pre : list CopyObs) (o : CopyObs) (rest : list CopyObs) :
  ReadConnectRequest env stream = inr creq ->
  auth <$> heap w !! p = Some (Some a) ->
  Allowed env (Addr creq) = true ->
  connect_dest env cfg a creq (default_maxIdleTime cfg) = (ev, None, Some c, m) ->
  Forall (fun o' => retry_copy m o' = true) pre ->
  retry_copy m o = false ->
  let res := handleProxyStream env cfg stream p (pre ++ o :: rest) closeSig w in
  let g := getRateLimitBucket (ToBytes env) (DefaultServerRateLimit cfg) (User a) (rl w) in
  let wrap := match rl_result g with Some r => [EvRateLimitReader c r] | None => [] end in
  let started :=
    ev ++ [EvGo (TaskCopyUp c stream)] ++ wrap
       ++ concat (deadline_event (hasDeadline env c) c m <$> (pre ++ [o]))
       ++ [EvDestClose c; EvStreamClose stream] in
  rl res.1.1 = rl_state g /\
  if closeSig
  then res.2 = Returned /\
       res.1.2 = started
                 ++ (if writerIsCloser env stream (CompressMethod a)
                     then [EvWriterClose stream] else [])
                 ++ (if readerIsCloser env stream (CompressMethod a)
                     then [EvReaderClose stream] else [])
                 ++ [EvDestClose c]
  else res.2 = Blocked /\ res.1.2 = started.
Proof.
  intros Hr Ha Hal Hcd Hpre Ho. cbv zeta.
  assert (Ha' : auth <$> heap (handler_enter p w) !! p = Some (Some a))
    by (by rewrite handler_enter_auth).
  assert (Hrl : forall w1, rl (handler_exit p w1) = rl w1).
  { intros w1. unfold handler_exit.
    destruct (heap (counter_add p (-1) w1) !! p) as [c0|]; [| done].
    by destruct ((streamCouter c0 =? 0) && negb (closed c0)). }
  assert (Hloop : relay_loop (hasDeadline env c) c stream m (pre ++ o :: rest) =
                  (concat (deadline_event (hasDeadline env c) c m <$> (pre ++ [o]))
                     ++ [EvDestClose c; EvStreamClose stream], true)).
  { rewrite relay_loop_app by done. rewrite relay_loop_break by done. simpl.
    rewrite fmap_app, concat_app. simpl. rewrite app_nil_r.
    rewrite <- app_assoc. reflexivity. }
  unfold handleProxyStream.
  rewrite (handler_body_relay env cfg _ _ _ _ _ creq a ev c m Hr Ha' Hal Hcd).
  rewrite Hloop. cbn [fst snd andb].
  change (rl (handler_enter p w)) with (rl w).
  destruct closeSig; cbn [fst snd].
  - rewrite Hrl. split; [done |]. split; [done |].
    rewrite <- ?app_assoc. reflexivity.
  - split; [done |]. split; [done |]. rewrite <- ?app_assoc. reflexivity.
Qed.

Lemma relayed_stream_trace_witness :
  (handleProxyStream env_ex cfg_ex 7 0
     ([obs_busy 400; obs_busy 800] ++ obs_done 1000 :: [obs_eof]) true world_alice).1.2
  = [EvDial "tcp" "example.org:80" (10000 * Millisecond);
     EvGo (TaskCopyUp (DConn 100) 7);
     EvSetReadDeadline (DConn 100) (400 * Second);
     EvSetReadDeadline (DConn 100) (800 * Second);
     EvSetReadDeadline (DConn 100) (1004 * Second);
     EvDestClose (DConn 100); EvStreamClose 7;
     EvWriterClose 7; EvDestClose (DConn 100)].
Proof.
  destruct (relayed_stream_trace env_ex cfg_ex 7 0 true world_alice auth_alice
              creq_direct [EvDial "tcp" "example.org:80" (10000 * Millisecond)]
              (DConn 100) (5000 * Millisecond) [obs_busy 400; obs_busy 800]
              (obs_done 1000) [obs_eof] eq_refl eq_refl eq_refl eq_refl)
    as (_ & _ & Htr).
  - repeat constructor.
  - reflexivity.
  - exact Htr.
Defined.

(** ** Accept loop *)

Section AcceptLoopFacts.

Variables (env : Env) (cfg : Config) (s p : nat).

Lemma count_events_app f l1 l2 :
  count_events f (l1 ++ l2) = (count_events f l1 + count_events f l2)%nat.
Proof. induction l1 as [|e l1 IH]; simpl; [done |]. rewrite IH. lia. Qed.

Lemma count_events_none f l :
  (forall e, e ∈ l -> f e = false) -> count_events f l = 0%nat.
Proof.
  induction l as [|e l IH]; intros H; simpl; [done |].
  rewrite (H e) by (apply elem_of_cons; by left). rewrite IH; [done |].
  intros e' He'. apply H. apply elem_of_cons. by right.
Qed.

(** A trace that starts with events that are no [go] has its first [go]
    after them. *)
Lemma quiet_prefix_split (l1 l2 pre post : list Event) (x : Event) :
  (forall e, e ∈ l1 -> is_go e = false) -> is_go x = true ->
  l1 ++ l2 = pre ++ x :: post ->
  exists pre2, pre = l1 ++ pre2 /\ l2 = pre2 ++ x :: post.
Proof.
  revert pre. induction l1 as [|e l1 IH]; intros pre Hq Hx Heq.
  - by exists pre.
  - destruct pre as [|e' pre]; simpl in Heq.
    + injection Heq as -> _. rewrite Hq in Hx; [done |]. apply elem_of_cons. by left.
    + injection Heq as -> Heq.
      destruct (IH pre) as (pre2 & -> & ->); [| done | done |].
      * intros e He. apply Hq. apply elem_of_cons. by right.
      * by exists pre2.
Qed.

Lemma close_events p' w e :
  e ∈ (close p' w).2 ->
  is_go e = false /\ is_auth_ok e = false /\ is_reset e = false.
Proof.
  unfold close. destruct (heap w !! p') as [ctx|]; simpl.
  - intros H. apply elem_of_cons in H as [->|H]; [done |].
    apply elem_of_app in H as [H|H].
    + destruct (isP2SP ctx), (auth ctx); try (by apply elem_of_nil in H);
        apply list_elem_of_singleton in H; by subst.
    + apply elem_of_cons in H as [->|H]; [done |].
      apply list_elem_of_singleton in H. by subst.
  - intros H. by apply elem_of_nil in H.
Qed.

Lemma auth_ok_counts stream r :
  count_events is_auth_ok (auth_ok env s stream r) = 1%nat /\
  (count_events is_reset (auth_ok env s stream r) <= 1)%nat /\
  (forall e, e ∈ auth_ok env s stream r ->
             is_go e = false /\ forall s', e ≠ EvSessionClose s').
Proof.
  unfold auth_ok. destruct (isProxyMuxSession env s); simpl.
  - split; [done |]. split; [lia |]. intros e H.
    repeat (apply elem_of_cons in H as [->|H]; [done |]). by apply elem_of_nil in H.
  - split; [done |]. split; [lia |]. intros e H.
    repeat (apply elem_of_cons in H as [->|H]; [done |]). by apply elem_of_nil in H.
Qed.

(** The outcomes of the handshake turn. *)
Lemma serve_iter_handshake stream w ctx :
  heap w !! p = Some ctx -> auth ctx = None ->
  let it := serve_iter env cfg s p (inr stream) w in
  (forall e, e ∈ it.1.2 -> is_go e = false) /\
  match it.2 with
  | Continue =>
      (it.1.1 = w /\ it.1.2 = []) \/
      (exists a, auth <$> heap it.1.1 !! p = Some (Some a) /\
                 count_events is_auth_ok it.1.2 = 1%nat /\
                 (count_events is_reset it.1.2 <= 1)%nat /\
                 EvWriteAuthOK stream ∈ it.1.2)
  | Return err =>
      err = Some ErrAuthFailed /\
      count_events is_auth_ok it.1.2 = 0%nat /\ count_events is_reset it.1.2 = 0%nat
  end.
Proof.
  intros Hp Hnone. cbv zeta. unfold serve_iter. rewrite Hp, Hnone.
  destruct (ReadAuthRequest env stream) as [e|r].
  { simpl. split; [by intros e' H; apply elem_of_nil in H | by left]. }
  destruct (negb (VerifyUser env _ _)).
  { simpl. split; [| done]. intros e H. apply list_elem_of_singleton in H. by subst. }
  destruct (negb (IsValidCompressor env _)).
  { simpl. split; [| done]. intros e H. apply list_elem_of_singleton in H. by subst. }
  destruct (auth_ok_counts stream r) as (Hc1 & Hc2 & Hq).
  assert (Hin : EvWriteAuthOK stream ∈ auth_ok env s stream r).
  { unfold auth_ok. apply elem_of_app. left. apply elem_of_cons. by left. }
  destruct (0 <? _).
  - destruct (negb (addP2spSession env _ _ _)).
    + simpl. split; [| done]. intros e H.
      repeat (apply elem_of_cons in H as [->|H]; [done |]). by apply elem_of_nil in H.
    + cbn [fst snd]. split.
      * intros e H. apply elem_of_cons in H as [->|H]; [done |]. by apply Hq.
      * right. exists r. rewrite !ctx_update_lookup, Hp. split; [done |].
        cbn [count_events is_auth_ok is_reset]. split; [by rewrite Hc1 |].
        split; [lia |]. apply elem_of_cons. by right.
  - cbn [fst snd]. split; [intros e H; by apply Hq |].
    right. exists r. rewrite ctx_update_lookup, Hp. done.
Qed.

(** What every turn has in common. *)
Lemma serve_iter_result acc w :
  let it := serve_iter env cfg s p acc w in
  match it.2 with
  | Continue => forall s', EvSessionClose s' ∉ it.1.2
  | Return err => exists e, err = Some e /\ (e = ErrAuthFailed \/ acc = inl e)
  end.
Proof.
  cbv zeta. unfold serve_iter. destruct acc as [e|stream]; [simpl; eauto |].
  destruct (heap w !! p) as [ctx|]; [| simpl; by intros s' H; apply elem_of_nil in H].
  destruct (auth ctx).
  { simpl. intros s' H. apply list_elem_of_singleton in H. done. }
  destruct (ReadAuthRequest env stream) as [e|r];
    [simpl; by intros s' H; apply elem_of_nil in H |].
  destruct (negb (VerifyUser env _ _)); [simpl; eauto |].
  destruct (negb (IsValidCompressor env _)); [simpl; eauto |].
  destruct (auth_ok_counts stream r) as (_ & _ & Hq).
  destruct (0 <? _).
  - destruct (negb (addP2spSession env _ _ _)); [simpl; eauto |].
    cbn [fst snd]. intros s' H. apply elem_of_cons in H as [H|H]; [done |].
    by destruct (Hq _ H) as [_ Hn]; apply (Hn s').
  - cbn [fst snd]. intros s' H. by destruct (Hq _ H) as [_ Hn]; apply (Hn s').
Qed.

End AcceptLoopFacts.

(** X11: with the auth record present, the accept loop only dispatches.
    Every accepted stream is handed, in accept order, to the peer-relay
    handler when [isP2SP] is set and to [handleProxyStream] otherwise; the
    loop itself closes no stream, writes nothing and leaves the store as it
    is.  When [AcceptStream] then fails, the loop returns that error after
    the deferred [close].  A session that [ServProxyMuxSession] is given
    with a known auth record therefore never runs a handshake and hands all
    its streams to [handleProxyStream]. *)
Theorem authenticated_loop_only_dispatches
        (env : Env) (cfg : Config) (s p : nat) (streams : list nat) (e : error)
        (w : World) (ctx : sessionContext) (a : AuthRequest) :
  heap w !! p = Some ctx -> auth ctx = Some a ->
  serve_loop env cfg s p (inr <$> streams) w = (w, dispatch ctx p <$> streams, None) /\
  serve_loop env cfg s p ((inr <$> streams) ++ [inl e]) w =
    ((close p w).1, (dispatch ctx p <$> streams) ++ (close p w).2, Some (Some e)) /\
  (forall now w0,
     ServProxyMuxSession env cfg s (Some a) now (inr <$> streams) w0 =
       ((sess_new s (Some a) now w0).2,
        (fun st => EvGo (TaskProxy st (length (heap w0)))) <$> streams, None)).
Proof.
  intros Hp Ha.
  assert (Hgen : forall p' w' ctx', heap w' !! p' = Some ctx' -> auth ctx' = Some a ->
            forall tail,
              serve_loop env cfg s p' ((inr <$> streams) ++ tail) w' =
                ((serve_loop env cfg s p' tail w').1.1,
                 (dispatch ctx' p' <$> streams) ++ (serve_loop env cfg s p' tail w').1.2,
                 (serve_loop env cfg s p' tail w').2)).
  { intros p' w' ctx' Hp' Ha' tail. induction streams as [|st streams IH].
    - simpl. by destruct (serve_loop env cfg s p' tail w') as [[? ?] ?].
    - rewrite fmap_cons. simpl app.
      rewrite (serve_loop_continue env cfg s p' st _ w' w' _
                 (serve_iter_dispatch env cfg s p' st w' ctx' a Hp' Ha')).
      rewrite IH. reflexivity. }
  split; [| split].
  - rewrite <- (app_nil_r (inr <$> streams)). rewrite (Hgen p w ctx Hp Ha []).
    simpl. by rewrite app_nil_r.
  - rewrite (Hgen p w ctx Hp Ha [inl e]). by rewrite serve_loop_accept_error.
  - intros now w0. unfold ServProxyMuxSession. cbn [sess_new].
    set (w1 := {| heap := _; emptySessions := _; rl := _ |}).
    rewrite <- (app_nil_r (inr <$> streams)).
    rewrite (Hgen (length (heap w0)) w1
               {| auth := Some a; activeIOTime := now; streamCouter := 0;
                  session := s; closed := false; isP2SP := false |}).
    + simpl. by rewrite app_nil_r.
    + subst w1. simpl. rewrite lookup_app_r by lia. by rewrite Nat.sub_diag.
    + done.
Qed.

Lemma authenticated_loop_only_dispatches_witness :
  serve_loop env_ex cfg_ex 50 0 (inr <$> [7; 8; 9]%nat) world_alice =
    (world_alice, [EvGo (TaskProxy 7 0); EvGo (TaskProxy 8 0); EvGo (TaskProxy 9 0)], None).
Proof.
  exact (proj1 (authenticated_loop_only_dispatches env_ex cfg_ex 50 0 [7; 8; 9]%nat
                  ErrSessionShutdown world_alice _ auth_alice eq_refl eq_refl)).
Defined.

(** X12: no proxy stream before the handshake.  On a context without auth
    record, whatever streams are accepted and whatever they carry, every
    handler task the accept loop starts comes after an auth-OK response has
    been written. *)
Theorem no_dispatch_before_handshake
        (env : Env) (cfg : Config) (s p : nat) (accepts : list (error + nat))
        (w : World) (ctx : sessionContext)
        (pre post : list Event) (t : Task) :
  heap w !! p = Some ctx -> auth ctx = None ->
  (serve_loop env cfg s p accepts w).1.2 = pre ++ EvGo t :: post ->
  exists stream, EvWriteAuthOK stream ∈ pre.
Proof.
  revert w ctx pre. induction accepts as [|acc accepts IH]; intros w ctx pre Hp Hnone Htr.
  - simpl in Htr. by destruct pre.
  - assert (Hnogo : forall l, (forall x, x ∈ l -> is_go x = false) ->
                              l ≠ pre ++ EvGo t :: post).
    { intros l Hl Heq. specialize (Hl (EvGo t)). rewrite Heq in Hl.
      assert (is_go (EvGo t) = false); [| done].
      apply Hl. apply elem_of_app. right. apply elem_of_cons. by left. }
    destruct acc as [e|stream].
    + rewrite serve_loop_accept_error in Htr. simpl in Htr.
      exfalso. apply (Hnogo (close p w).2); [| done].
      intros x Hx. by apply close_events in Hx as [? _].
    + pose proof (serve_iter_handshake env cfg s p stream w ctx Hp Hnone) as [Hq Hcase].
      destruct (serve_iter env cfg s p (inr stream) w) as [[w1 ev] r] eqn:Eit.
      cbn [fst snd] in Hq, Hcase. destruct r as [|err].
      * rewrite (serve_loop_continue env cfg s p stream accepts w w1 ev Eit) in Htr.
        cbn [fst snd] in Htr.
        destruct Hcase as [[-> ->] | (a0 & _ & _ & _ & Hin)].
        -- simpl in Htr. by eapply IH.
        -- destruct (quiet_prefix_split ev _ pre post (EvGo t) Hq eq_refl Htr)
             as (pre2 & -> & _).
           exists stream. apply elem_of_app. by left.
      * rewrite (serve_loop_return env cfg s p (inr stream) accepts w w1 ev err Eit) in Htr.
        cbn [fst snd] in Htr. exfalso. apply (Hnogo (ev ++ (close p w1).2)); [| done].
        intros x Hx. apply elem_of_app in Hx as [Hx|Hx]; [by apply Hq |].
        by apply close_events in Hx as [? _].
Qed.

Lemma no_dispatch_before_handshake_witness :
  exists stream,
    EvWriteAuthOK stream ∈ [EvWriteAuthOK 1; EvStreamClose 1;
                            EvResetCrypto 50 "chacha20poly1305" 7].
Proof.
  apply (no_dispatch_before_handshake env_ex cfg_ex 50 0
           [inr 6%nat; inr 1%nat; inr 7%nat] world_fresh _
           [EvWriteAuthOK 1; EvStreamClose 1; EvResetCrypto 50 "chacha20poly1305" 7]
           [] (TaskProxy 7 0) eq_refl eq_refl).
  vm_compute. reflexivity.
Defined.

(** X13: how the accept loop ends.  [ServProxyMuxSession] never returns a
    nil error: it returns [ErrAuthFailed] or the error of a failed
    [AcceptStream].  Whenever it returns, the deferred [close] has run: the
    context is closed and not in [emptySessions], and the last actions were
    closing the session and removing the context from the set.  While the
    loop is still accepting, it has not closed the session and has changed
    neither the closed flag nor the set. *)
Theorem accept_loop_exit
        (env : Env) (cfg : Config) (s p : nat) (accepts : list (error + nat))
        (w : World) (ctx : sessionContext) :
  heap w !! p = Some ctx ->
  let res := serve_loop env cfg s p accepts w in
  match res.2 with
  | Some err =>
      (exists e, err = Some e /\ (e = ErrAuthFailed \/ inl e ∈ accepts)) /\
      exists ctx' pre,
        heap res.1.1 !! p = Some ctx' /\ closed ctx' = true /\
        session ctx' = session ctx /\ (p ∉ emptySessions res.1.1) /\
        res.1.2 = pre ++ [EvSessionClose (session ctx); EvEmptyDelete p]
  | None =>
      (exists ctx', heap res.1.1 !! p = Some ctx' /\ closed ctx' = closed ctx) /\
      emptySessions res.1.1 = emptySessions w /\
      forall s', EvSessionClose s' ∉ res.1.2
  end.
Proof.
  revert w ctx. induction accepts as [|acc accepts IH]; intros w ctx Hp; cbv zeta.
  - simpl. split; [by exists ctx |]. split; [done |].
    intros s' H. by apply elem_of_nil in H.
  - pose proof (serve_iter_same_book env cfg s p acc w) as (Hes & _ & Hbook).
    pose proof (serve_iter_result env cfg s p acc w) as Hres.
    destruct (serve_iter env cfg s p acc w) as [[w1 ev] r] eqn:Eit.
    cbn [fst snd] in Hes, Hbook, Hres.
    destruct (Hbook p ctx Hp) as (ctx1 & Hp1 & _ & Hcl1 & _ & Hs1).
    destruct r as [|err].
    + assert (Hloop : serve_loop env cfg s p (acc :: accepts) w =
                ((serve_loop env cfg s p accepts w1).1.1,
                 ev ++ (serve_loop env cfg s p accepts w1).1.2,
                 (serve_loop env cfg s p accepts w1).2)).
      { cbn [serve_loop]. rewrite Eit.
        by destruct (serve_loop env cfg s p accepts w1) as [[? ?] ?]. }
      rewrite Hloop. cbn [fst snd].
      specialize (IH w1 ctx1 Hp1). cbv zeta in IH.
      destruct (serve_loop env cfg s p accepts w1).2 as [err|].
      * destruct IH as [(e & -> & He) (ctx' & pre & H1 & H2 & H3 & H4 & H5)].
        split.
        { exists e. split; [done |]. destruct He as [He|He]; [by left | right].
          apply elem_of_cons. by right. }
        exists ctx', (ev ++ pre). rewrite H5, Hs1, <- app_assoc.
        split; [done |]. split; [done |]. split; [congruence | done].
      * destruct IH as [(ctx' & H1 & H2) [H3 H4]].
        split; [exists ctx'; split; [done | congruence] |].
        split; [congruence |].
        intros s' Hin. apply elem_of_app in Hin as [Hin|Hin];
          [by apply (Hres s') | by apply (H4 s')].
    + rewrite (serve_loop_return env cfg s p acc accepts w w1 ev err Eit). cbn [fst snd].
      destruct Hres as (e & -> & He). split.
      { exists e. split; [done |]. destruct He as [He|He]; [by left | right].
        apply elem_of_cons. left. done. }
      exists (set_closed true ctx1). eexists.
      rewrite (close_spec p w1 ctx1 Hp1). cbn [fst snd].
      split.
      { unfold es_delete. simpl. by rewrite list_lookup_alter_eq, Hp1. }
      split; [done |]. split; [done |]. split.
      { unfold es_delete. simpl. rewrite elem_of_difference, elem_of_singleton. tauto. }
      rewrite Hs1. rewrite !app_assoc. reflexivity.
Qed.

Lemma accept_loop_exit_witness :
  exists ctx' pre,
    heap (serve_loop env_ex cfg_ex 50 0 [inr 2%nat] world_fresh).1.1 !! 0%nat = Some ctx' /\
    closed ctx' = true /\
    (serve_loop env_ex cfg_ex 50 0 [inr 2%nat] world_fresh).1.2
      = pre ++ [EvSessionClose 50; EvEmptyDelete 0].
Proof.
  pose proof (accept_loop_exit env_ex cfg_ex 50 0 [inr 2%nat] world_fresh _ eq_refl) as H.
  cbv zeta in H.
  change ((serve_loop env_ex cfg_ex 50 0 [inr 2%nat] world_fresh).2)
    with (Some (Some ErrAuthFailed)) in H.
  destruct H as [_ (ctx' & pre & H1 & H2 & _ & _ & H5)].
  exists ctx', pre. split; [exact H1 |]. split; [exact H2 | exact H5].
Defined.

Section AuthStable.

Lemma serve_iter_frame env cfg s p acc w q :
  q ≠ p -> heap (serve_iter env cfg s p acc w).1.1 !! q = heap w !! q.
Proof.
  intros Hne. unfold serve_iter. destruct acc as [e|stream]; [done |].
  destruct (heap w !! p) as [ctx|]; [| done].
  destruct (auth ctx); [done |].
  destruct (ReadAuthRequest env stream) as [|r]; [done |].
  destruct (negb (VerifyUser env _ _)); [done |].
  destruct (negb (IsValidCompressor env _)); [done |].
  destruct (0 <? _).
  - destruct (negb (addP2spSession env _ _ _)); cbn [fst snd].
    + by rewrite ctx_update_lookup_ne.
    + by rewrite !ctx_update_lookup_ne.
  - cbn [fst snd]. by rewrite ctx_update_lookup_ne.
Qed.

Lemma serve_iter_keeps_auth env cfg s p acc w q c a :
  heap w !! q = Some c -> auth c = Some a ->
  heap (serve_iter env cfg s p acc w).1.1 !! q = Some c.
Proof.
  intros Hq Ha. destruct (decide (q = p)) as [->|Hne].
  - destruct acc as [e|stream]; [done |].
    by rewrite (serve_iter_dispatch env cfg s p stream w c a Hq Ha).
  - by rewrite serve_iter_frame.
Qed.

Lemma sys_step_keeps_auth act st st' q c a :
  sys_step act st = Some st' ->
  heap (world st) !! q = Some c -> auth c = Some a ->
  exists c', heap (world st') !! q = Some c' /\ auth c' = Some a /\
             isP2SP c' = isP2SP c.
Proof.
  intros Hstep Hq Ha.
  assert (Hclose : forall p w, heap w !! q = Some c ->
            exists c', heap (close p w).1 !! q = Some c' /\ auth c' = Some a /\
                       isP2SP c' = isP2SP c).
  { intros p w Hw. rewrite close_lookup, Hw. simpl.
    destruct (decide (p = q)); eexists; (split; [reflexivity |]); done. }
  destruct act as [s au now | env cfg s p acc | p | p | cfg now p]; simpl in Hstep.
  - injection Hstep as <-. exists c. simpl. split; [by apply lookup_app_l_Some | done].
  - destruct (heap (world st) !! p); [| done].
    pose proof (serve_iter_keeps_auth env cfg s p acc (world st) q c a Hq Ha) as Hk.
    destruct (serve_iter env cfg s p acc (world st)) as [[w1 ev] r]. cbn [fst] in Hk.
    destruct r; injection Hstep as <-; simpl; [by exists c | by apply Hclose].
  - destruct (active st !! p); [| done]. destruct (_ <? _); [| done].
    injection Hstep as <-. cbn [world].
    destruct (counter_add_lookup p 1 q (world st) c Hq) as (c' & H1 & _ & _ & _ & H2 & H3).
    exists c'. split; [exact H1 |]. split; congruence.
  - destruct (active st !! p) as [[|n]|]; [done | | done].
    injection Hstep as <-. cbn [world]. rewrite handler_exit_heap.
    destruct (counter_add_lookup p (-1) q (world st) c Hq) as (c' & H1 & _ & _ & _ & H2 & H3).
    exists c'. split; [exact H1 |]. split; congruence.
  - injection Hstep as <-. cbn [world].
    destruct (reaper_visit_is_close cfg now p (world st)) as [-> | ->];
      [by exists c | by apply Hclose].
Qed.

End AuthStable.

(** X14: the auth record is written once.  Once a context carries an auth
    record, no turn of any accept loop, no handler and no reaper tick
    changes that record or the peer-relay flag: whatever the program does
    next, the context still carries the same record and the same flag. *)
Theorem auth_is_immutable_once_set
        (acts : list Act) (st st' : Sys) (q : nat) (c : sessionContext)
        (a : AuthRequest) :
  sys_run acts st = Some st' ->
  heap (world st) !! q = Some c -> auth c = Some a ->
  exists c', heap (world st') !! q = Some c' /\ auth c' = Some a /\
             isP2SP c' = isP2SP c.
Proof.
  revert st c. induction acts as [|act acts IH]; intros st c Hrun Hq Ha; simpl in Hrun.
  - injection Hrun as <-. by exists c.
  - destruct (sys_step act st) as [st1|] eqn:E; [| done].
    destruct (sys_step_keeps_auth act st st1 q c a E Hq Ha) as (c1 & H1 & H2 & H3).
    destruct (IH st1 c1 Hrun H1 H2) as (c' & G1 & G2 & G3).
    exists c'. split; [done |]. split; [done | congruence].
Qed.

Lemma auth_is_immutable_once_set_witness :
  exists st' c',
    sys_run [AServe env_ex cfg_ex 50 0 (inr 5%nat); AEnter 0; AExit 0;
             AReap cfg_ex (1001 * Second) 0]
            {| world := world_alice; active := [0%nat] |} = Some st' /\
    heap (world st') !! 0%nat = Some c' /\ auth c' = Some auth_alice /\
    closed c' = true.
Proof.
  assert (Hrun : exists st',
             sys_run [AServe env_ex cfg_ex 50 0 (inr 5%nat); AEnter 0; AExit 0;
                      AReap cfg_ex (1001 * Second) 0]
                     {| world := world_alice; active := [0%nat] |} = Some st' /\
             closed <$> heap (world st') !! 0%nat = Some true)
    by (eexists; split; vm_compute; reflexivity).
  destruct Hrun as (st' & Hrun & Hcl).
  destruct (auth_is_immutable_once_set _ _ st' 0 _ auth_alice Hrun eq_refl eq_refl)
    as (c' & H1 & H2 & _).
  exists st', c'. split; [exact Hrun |]. split; [exact H1 |]. split; [exact H2 |].
  rewrite H1 in Hcl. by injection Hcl.
Defined.

(** X15: one handshake per session.  Over any run of the accept loop, the
    auth-OK response is written at most once and the cipher context is reset
    at most once; on a context that already carries an auth record, neither
    ever happens. *)
Theorem at_most_one_handshake
        (env : Env) (cfg : Config) (s p : nat) (accepts : list (error + nat))
        (w : World) (ctx : sessionContext) :
  heap w !! p = Some ctx ->
  let tr := (serve_loop env cfg s p accepts w).1.2 in
  let bound := match auth ctx with Some _ => 0%nat | None => 1%nat end in
  (count_events is_auth_ok tr <= bound)%nat /\
  (count_events is_reset tr <= bound)%nat.
Proof.
  revert w ctx. induction accepts as [|acc accepts IH]; intros w ctx Hp; cbv zeta.
  - simpl. lia.
  - assert (Hcl : forall w1, count_events is_auth_ok (close p w1).2 = 0%nat /\
                             count_events is_reset (close p w1).2 = 0%nat).
    { intros w1. split; apply count_events_none; intros e He;
        by apply close_events in He as (_ & ? & ?). }
    destruct acc as [e|stream].
    { rewrite serve_loop_accept_error. cbn [fst snd]. destruct (Hcl w) as [-> ->]. lia. }
    destruct (auth ctx) as [a|] eqn:Ea.
    + pose proof (serve_iter_dispatch env cfg s p stream w ctx a Hp Ea) as Hit.
      rewrite (serve_loop_continue env cfg s p stream accepts w w _ Hit). cbn [fst snd].
      specialize (IH w ctx Hp). cbv zeta in IH. rewrite Ea in IH. simpl. exact IH.
    + pose proof (serve_iter_handshake env cfg s p stream w ctx Hp Ea) as [_ Hcase].
      destruct (serve_iter env cfg s p (inr stream) w) as [[w1 ev] r] eqn:Eit.
      cbn [fst snd] in Hcase. destruct r as [|err].
      * rewrite (serve_loop_continue env cfg s p stream accepts w w1 ev Eit).
        cbn [fst snd]. rewrite !count_events_app.
        destruct Hcase as [[-> ->] | (a & Hauth & Hc1 & Hc2 & _)].
        -- specialize (IH w ctx Hp). cbv zeta in IH. rewrite Ea in IH. simpl. exact IH.
        -- destruct (heap w1 !! p) as [ctx1|] eqn:Hp1; [| done].
           simpl in Hauth. injection Hauth as Hauth.
           specialize (IH w1 ctx1 Hp1). cbv zeta in IH. rewrite Hauth in IH. lia.
      * rewrite (serve_loop_return env cfg s p (inr stream) accepts w w1 ev err Eit).
        cbn [fst snd]. rewrite !count_events_app.
        destruct Hcase as (_ & -> & ->). destruct (Hcl w1) as [-> ->]. lia.
Qed.

Lemma at_most_one_handshake_witness :
  (count_events is_auth_ok
     (serve_loop env_ex cfg_ex 50 0 [inr 6%nat; inr 1%nat; inr 5%nat; inr 7%nat]
                 world_fresh).1.2 <= 1)%nat.
Proof.
  exact (proj1 (at_most_one_handshake env_ex cfg_ex 50 0
                  [inr 6%nat; inr 1%nat; inr 5%nat; inr 7%nat] world_fresh _ eq_refl)).
Defined.

(** X16: the counter counts the running handlers.  In every state the
    program reaches (entry, exit and [close] taken as indivisible steps,
    fewer than 2^31 handlers at once on a session), [streamCouter] of a
    context is the number of handlers that have entered and not yet left;
    it is zero exactly when no handler is running on the context, and then
    a handler's entry takes it to one. *)
Theorem stream_counter_counts_handlers
        (acts : list Act) (st : Sys) (p : nat) (ctx : sessionContext) :
  sys_run acts sys_init = Some st ->
  heap (world st) !! p = Some ctx ->
  exists n, active st !! p = Some n /\
            streamCouter ctx = Z.of_nat n /\
            (streamCouter ctx = 0 <-> n = 0%nat) /\
            streamCouter ctx <= 2^31 - 1 /\
            (n = 0%nat ->
             streamCouter <$> heap (handler_enter p (world st)) !! p = Some 1).
Proof.
  intros Hrun Hp.
  pose proof (sys_run_inv acts sys_init st sys_inv_init Hrun) as [Hlen Hinv].
  assert (is_Some (active st !! p)) as [n Hn].
  { apply lookup_lt_is_Some. rewrite Hlen. by eapply lookup_lt_Some. }
  destruct (Hinv p ctx n Hp Hn) as (H1 & H2 & _).
  exists n. split; [done |]. split; [done |]. split; [lia |].
  split; [rewrite max_handlers_val in H2; lia |].
  intros ->. rewrite handler_enter_lookup, Hp. simpl. by rewrite H1.
Qed.

Lemma stream_counter_counts_handlers_witness :
  exists st ctx,
    sys_run [ANew 50 (Some auth_alice) 0; AEnter 0; AEnter 0; AEnter 0; AExit 0] sys_init
      = Some st /\
    heap (world st) !! 0%nat = Some ctx /\ streamCouter ctx = 2.
Proof.
  assert (Hrun : exists st,
             sys_run [ANew 50 (Some auth_alice) 0; AEnter 0; AEnter 0; AEnter 0; AExit 0]
                     sys_init = Some st /\
             active st !! 0%nat = Some 2%nat /\ is_Some (heap (world st) !! 0%nat))
    by (eexists; split; [vm_compute; reflexivity | split; [reflexivity | by eexists]]).
  destruct Hrun as (st & Hrun & Hact & [ctx Hctx]).
  destruct (stream_counter_counts_handlers _ st 0 ctx Hrun Hctx) as (n & Hn & Hc & _).
  exists st, ctx. split; [exact Hrun |]. split; [exact Hctx |].
  rewrite Hact in Hn. injection Hn as <-. exact Hc.
Defined.
